(** * Adzuna job-search tool: a shallow embedding of
      [src/components/agent/tools/adzuna.ts] and the properties of its
      [mapAdzunaJobToJob] mapping and [searchAdzunaJobs.execute] retry loop.

    Conventions of the embedding.
    - A JavaScript string is a [string] holding its UTF-8 bytes.
    - A JavaScript [number] that the caller or the provider supplies is a
      [Number]: [NaN], an infinity, or a rational, which every finite
      double is. Statuses and lengths, which are integers, are [Z].
    - The renderings of numbers that depend on the runtime (the locale
      format, and [toString] outside the integers below [1e21]) are
      answered by the environment.
    - [process.env] is a finite map from names to values.
    - [fetch], [response.json()], [uuidv4()] and [new Date()] are answered by
      an explicit environment; the calls [execute] makes are recorded in a
      trace of events. Console output is not part of the trace. *)

From Stdlib Require Import ZArith QArith Ascii String DecimalString.
From stdpp Require Import gmap strings list.

Local Open Scope Z_scope.

(** ** JavaScript built-ins used by the tool *)

Inductive Number :=
| NaN
| Inf (negative : bool)
| Num (q : Q).

Module JS.

(** Decimal digits of an integer, with a leading minus sign for negative
    values. *)
Definition decimal (n : Z) : string :=
  NilZero.string_of_int (Z.to_int n).

(** [Number.prototype.toString()] on an integer: its decimal digits when
    its magnitude is below [1e21]; from there on the exponent notation,
    which [exponent] supplies. *)
Definition toString (exponent : Z -> string) (n : Z) : string :=
  if Z.abs n <? 10 ^ 21 then decimal n else exponent n.

(** [String.prototype.toLowerCase()], on the ASCII letters. Bytes of
    multi-byte characters are left as they are. *)
Definition lower_ascii (c : ascii) : ascii :=
  let n := N_of_ascii c in
  if ((65 <=? n) && (n <=? 90))%N then ascii_of_N (n + 32) else c.

Fixpoint toLowerCase (s : string) : string :=
  match s with
  | EmptyString => EmptyString
  | String c rest => String (lower_ascii c) (toLowerCase rest)
  end.

(** [s.startsWith(p)]. *)
Fixpoint startsWith (p s : string) : bool :=
  match p, s with
  | EmptyString, _ => true
  | String a p', String b s' => if Ascii.eqb a b then startsWith p' s' else false
  | String _ _, EmptyString => false
  end.

(** [s.includes(needle)]: does [needle] occur at some position of [s]. *)
Fixpoint includes (needle s : string) : bool :=
  startsWith needle s ||
  match s with
  | EmptyString => false
  | String _ s' => includes needle s'
  end.

(** Truthiness of a string: only the empty string is falsy. *)
Definition truthy_string (s : string) : bool :=
  match s with EmptyString => false | _ => true end.

(** Truthiness of an optional string ([undefined] is falsy). *)
Definition truthy (o : option string) : bool :=
  match o with Some s => truthy_string s | None => false end.

(** Truthiness of an optional number: [undefined], [NaN] and zero are
    falsy. *)
Definition truthy_number (o : option Number) : bool :=
  match o with
  | Some NaN => false
  | Some (Inf _) => true
  | Some (Num q) => negb (Qnum q =? 0)
  | None => false
  end.

End JS.

(** ** URL query strings *)

Module URLSearchParams.

(** A [URLSearchParams] object is an ordered list of name/value pairs;
    duplicates are allowed. *)
Definition t : Type := list (string * string).

(** [new URLSearchParams({ k1: v1, ... })]: the object's entries in
    insertion order. *)
Definition of_entries (entries : list (string * string)) : t := entries.

(** [params.append(name, value)]. *)
Definition append (params : t) (name value : string) : t :=
  params ++ [(name, value)].

Definition hex_digit (n : N) : ascii :=
  if (n <? 10)%N then ascii_of_N (48 + n) else ascii_of_N (55 + n).

(** Bytes the [application/x-www-form-urlencoded] serializer leaves as
    they are: ASCII letters and digits, and [*], [-], [.], [_]. *)
Definition unreserved (c : ascii) : bool :=
  let n := N_of_ascii c in
  (((48 <=? n) && (n <=? 57)) || ((65 <=? n) && (n <=? 90)) ||
   ((97 <=? n) && (n <=? 122)) ||
   (n =? 42) || (n =? 45) || (n =? 46) || (n =? 95))%N.

Definition encode_byte (c : ascii) : string :=
  let n := N_of_ascii c in
  if (n =? 32)%N then "+"
  else if unreserved c then String c EmptyString
  else String "%" (String (hex_digit (n / 16)) (String (hex_digit (n mod 16)) EmptyString)).

Fixpoint encode (s : string) : string :=
  match s with
  | EmptyString => EmptyString
  | String c rest => encode_byte c +:+ encode rest
  end.

(** [params.toString()]: [name=value] pairs joined by [&]. *)
Fixpoint toString (params : t) : string :=
  match params with
  | [] => EmptyString
  | [(name, value)] => encode name +:+ "=" +:+ encode value
  | (name, value) :: rest =>
      encode name +:+ "=" +:+ encode value +:+ "&" +:+ toString rest
  end.

(** *** Reading a query string back

    What the receiving server sees: the parser of the same format,
    [new URL(url).searchParams]. *)

Definition hex_value (c : ascii) : option N :=
  let n := N_of_ascii c in
  if ((48 <=? n) && (n <=? 57))%N then Some (n - 48)%N
  else if ((65 <=? n) && (n <=? 70))%N then Some (n - 55)%N
  else if ((97 <=? n) && (n <=? 102))%N then Some (n - 87)%N
  else None.

Fixpoint decode (s : string) : string :=
  match s with
  | EmptyString => EmptyString
  | String c s1 =>
      if Ascii.eqb c "+" then String " " (decode s1)
      else if Ascii.eqb c "%" then
        match s1 with
        | String h (String l s3) =>
            match hex_value h, hex_value l with
            | Some a, Some b => String (ascii_of_N (16 * a + b)) (decode s3)
            | _, _ => String c (decode s1)
            end
        | _ => String c (decode s1)
        end
      else String c (decode s1)
  end.

(** [s] cut at the first occurrence of [sep]; the second component is
    [None] when [sep] does not occur. *)
Fixpoint cut (sep : ascii) (s : string) : string * option string :=
  match s with
  | EmptyString => (EmptyString, None)
  | String c rest =>
      if Ascii.eqb c sep then (EmptyString, Some rest)
      else let '(a, b) := cut sep rest in (String c a, b)
  end.

(** The pieces of [s] between occurrences of [sep]. *)
Fixpoint pieces (sep : ascii) (s : string) : list string :=
  match s with
  | EmptyString => [EmptyString]
  | String c rest =>
      if Ascii.eqb c sep then EmptyString :: pieces sep rest
      else match pieces sep rest with
           | p :: ps => String c p :: ps
           | [] => [String c EmptyString]
           end
  end.

(** Does the byte [sep] occur in [s]. *)
Fixpoint occurs (sep : ascii) (s : string) : bool :=
  match s with
  | EmptyString => false
  | String c rest => Ascii.eqb c sep || occurs sep rest
  end.

(** One serialized pair. *)
Definition pair_text (name value : string) : string :=
  encode name +:+ "=" +:+ encode value.

Definition parse_pair (piece : string) : string * string :=
  let '(name, value) := cut "=" piece in
  (decode name, decode (default EmptyString value)).

Definition parse (query : string) : t :=
  parse_pair <$> filter (fun p => p <> EmptyString) (pieces "&" query).

(** The query parameters of a URL: what follows its first [?]. *)
Definition of_url (url : string) : t :=
  match cut "?" url with
  | (_, Some query) => parse query
  | (_, None) => []
  end.

(** [params.getAll(name)]. *)
Definition getAll (params : t) (name : string) : list string :=
  snd <$> filter (fun p => fst p = name) params.

(** [params.get(name)]: the first value, if any. *)
Definition get (params : t) (name : string) : option string :=
  head (getAll params name).

End URLSearchParams.

(** ** Data model *)

(** The provider's wire shape ([interface AdzunaJob]). *)
Module AdzunaJob.
Record company_t := { company_display_name : string }.
Record location_t := {
  location_display_name : string;
  area : option (list string) }.
Record category_t := { label : string }.
Record t := {
  id : string;
  title : string;
  company : company_t;
  location : location_t;
  description : string;
  salary_min : option Number;
  salary_max : option Number;
  redirect_url : string;
  category : option category_t;
  contract_type : option string;
  created : option string }.
End AdzunaJob.

(** [interface AdzunaResponse]. *)
Record AdzunaResponse := {
  results : list AdzunaJob.t;
  count : Number;
  mean : option Number }.

(** The canonical job record ([Job] of [@/types/job]), with the fields the
    mapping fills in. An absent [salary] is [None]. *)
Module Job.
Record t := {
  id : string;
  title : string;
  company : string;
  location : string;
  salary : option string;
  description : string;
  requirements : list string;
  url : string;
  source : string;
  discoveredAt : string }.
End Job.

(** The arguments of [execute]; [location] and [resultsCount] may be
    [undefined]. *)
Record Args := {
  query : string;
  location : option string;
  resultsCount : option Number }.

(** The two object shapes [execute] returns. *)
Inductive SearchResult :=
| ErrorResult (error : string) (jobs : list Job.t)
| DisplayResult (jobs : list Job.t) (count : Z)
    (query location message : string).

Definition action (r : SearchResult) : string :=
  match r with
  | ErrorResult _ _ => "error"
  | DisplayResult _ _ _ _ _ => "display"
  end.

Definition jobs_of (r : SearchResult) : list Job.t :=
  match r with
  | ErrorResult _ jobs => jobs
  | DisplayResult jobs _ _ _ _ => jobs
  end.

Definition error_of (r : SearchResult) : option string :=
  match r with
  | ErrorResult error _ => Some error
  | DisplayResult _ _ _ _ _ => None
  end.

Definition count_of (r : SearchResult) : option Z :=
  match r with
  | ErrorResult _ _ => None
  | DisplayResult _ count _ _ _ => Some count
  end.

Definition location_of (r : SearchResult) : option string :=
  match r with
  | ErrorResult _ _ => None
  | DisplayResult _ _ _ location _ => Some location
  end.

(** ** Thrown values and the network *)

(** The value of a [code] property: absent, a number (the legacy numeric
    code of a [DOMException]) or a string (a Node system error code). *)
Inductive CodeValue :=
| CodeUndefined
| CodeNumber (n : Z)
| CodeString (s : string).

(** What the [catch] clause reads off a thrown value on which properties
    can be read (an object, or a primitive other than [null] and
    [undefined]). [name] is [None] when the value has no [name]; [cause] is
    [None] when [error.cause] is nullish, and otherwise holds
    [error.cause.code]. *)
Record JsError := {
  instanceof_Error : bool;
  name : option string;
  message : string;
  code : CodeValue;
  cause : option CodeValue }.

(** A thrown value: [null], [undefined], or a value with properties. *)
Inductive Thrown :=
| ThrownNull
| ThrownUndefined
| ThrownObject (error : JsError).

Coercion ThrownObject : JsError >-> Thrown.

(** Outcome of [await response.json()] followed by the reads of the parsed
    value: the promise rejects; or the value is an [AdzunaResponse]; or the
    value parses but has another shape and reading it raises the
    [TypeError] [e]; or the body stalls and the promise never settles (the
    abort timer is cleared before the body is read). *)
Inductive JsonOutcome :=
| JsonRejects (v : Thrown)
| JsonResolves (data : AdzunaResponse)
| JsonIllShaped (e : JsError)
| JsonPending.

Record Response := {
  status : Z;
  statusText : string;
  json : JsonOutcome }.

(** [response.ok]: the status is in the range 200 to 299. *)
Definition ok (response : Response) : bool :=
  (200 <=? status response) && (status response <=? 299).

(** Outcome of [await fetch(url, ...)]: the promise rejects (abort by the
    timeout, network failure) or resolves with a response. A call that
    stalls is aborted by the timer, and so rejects. *)
Inductive FetchOutcome :=
| FetchRejects (v : Thrown)
| FetchResolves (response : Response).

(** The world [execute] runs in. [fetch k url] answers the [k]-th network
    call of the invocation; [uuidv4 i] and [toISOString i] answer the calls
    made while mapping the [i]-th job of a response. The last three fields
    are the runtime's renderings of numbers: [toLocaleString] in its
    default locale, and [toString] on the integers from [1e21] on and on
    the numbers that are not integers. *)
Record Env := {
  process_env : gmap string string;
  fetch : nat -> string -> FetchOutcome;
  uuidv4 : nat -> string;
  toISOString : nat -> string;
  toLocaleString : Number -> string;
  exponent_text : Z -> string;
  fraction_text : Q -> string }.

(** [Number.prototype.toString()]. *)
Definition Number_toString (env : Env) (x : Number) : string :=
  match x with
  | NaN => "NaN"
  | Inf negative => if negative then "-Infinity" else "Infinity"
  | Num q =>
      if Qnum q mod Z.pos (Qden q) =? 0
      then JS.toString (exponent_text env) (Qnum q / Z.pos (Qden q))
      else fraction_text env q
  end.

(** Observable effects of an invocation, in order. *)
Inductive Event :=
| EvFetch (url : string)
| EvSleep (ms : Z).

Definition is_fetch (ev : Event) : bool :=
  match ev with EvFetch _ => true | EvSleep _ => false end.

(** Number of network calls in a trace. *)
Definition fetch_calls (tr : list Event) : nat :=
  length (List.filter is_fetch tr).

(** How a block of code completes: it returns, it throws, or it waits for
    a promise that never settles. *)
Inductive Completion (A : Type) :=
| Return (a : A)
| Throw (v : Thrown)
| Pending.

Arguments Return {A} a.
Arguments Throw {A} v.
Arguments Pending {A}.

(** ** [mapAdzunaJobToJob] *)

Definition requirement_degree : string :=
  "Bachelor's degree or equivalent experience".

Definition requirement_experience : string :=
  "Relevant professional experience".

(** The [requirements] array after the two [if]s that push to it. *)
Definition extract_requirements (description : string) : list string :=
  let requirements : list string := [] in
  let descLower := JS.toLowerCase description in
  let requirements :=
    if JS.includes "bachelor" descLower || JS.includes "degree" descLower
    then requirements ++ [requirement_degree]
    else requirements in
  let requirements :=
    if JS.includes "experience" descLower
    then requirements ++ [requirement_experience]
    else requirements in
  requirements.

(** The [salary] variable after the [if / else if] that assigns it; it stays
    [undefined] on the remaining branch. [format] is the runtime's
    [toLocaleString]. *)
Definition format_salary (format : Number -> string)
    (salary_min salary_max : option Number) : option string :=
  if JS.truthy_number salary_min && JS.truthy_number salary_max then
    Some ("$" +:+ format (default NaN salary_min) +:+ " - $" +:+
          format (default NaN salary_max))
  else if JS.truthy_number salary_min then
    Some ("$" +:+ format (default NaN salary_min) +:+ "+")
  else None.

(** [format] is the runtime's [toLocaleString], [fresh_id] the value of
    [uuidv4()] and [now] the value of [new Date().toISOString()] at the
    call. *)
Definition mapAdzunaJobToJob (format : Number -> string)
    (fresh_id now : string) (adzunaJob : AdzunaJob.t) : Job.t :=
  {| Job.id := fresh_id;
     Job.title := AdzunaJob.title adzunaJob;
     Job.company :=
       AdzunaJob.company_display_name (AdzunaJob.company adzunaJob);
     Job.location :=
       AdzunaJob.location_display_name (AdzunaJob.location adzunaJob);
     Job.salary :=
       format_salary format (AdzunaJob.salary_min adzunaJob)
                     (AdzunaJob.salary_max adzunaJob);
     Job.description := AdzunaJob.description adzunaJob;
     Job.requirements := extract_requirements (AdzunaJob.description adzunaJob);
     Job.url := AdzunaJob.redirect_url adzunaJob;
     Job.source := "adzuna";
     Job.discoveredAt := now |}.

(** ** [searchAdzunaJobs] *)

(** [z.number().min(1).max(50)]: a number, not [NaN], between the
    bounds. Integrality is not asked for. *)
Definition within_bounds (x : Number) : bool :=
  match x with
  | NaN => false
  | Inf _ => false
  | Num q => Qle_bool (inject_Z 1) q && Qle_bool q (inject_Z 50)
  end.

(** [inputSchema], on the [resultsCount] field: [z.number().min(1).max(50)
    .default(20)]. An absent value is replaced by the default; a value
    outside the bounds fails validation ([None]). [query] is any string and
    [location] any optional string. *)
Definition inputSchema (raw : Args) : option Args :=
  match resultsCount raw with
  | None =>
      Some {| query := query raw; location := location raw;
              resultsCount := Some (Num (inject_Z 20)) |}
  | Some x =>
      if within_bounds x then Some raw else None
  end.

Definition baseUrl : string := "https://api.adzuna.com/v1/api/jobs/us/search/1".

Definition maxRetries : Z := 3.

Definition timeout : Z := 10000.

Definition dquote : string := String "034"%char EmptyString.

Definition credentials_error : string :=
  "Adzuna API credentials are not configured. Please add ADZUNA_APP_ID and ADZUNA_APP_KEY to your environment variables.".

(** The [URLSearchParams] object at the point the URL is built. *)
Definition request_params (env : Env) (appId apiKey : string) (args : Args)
  : URLSearchParams.t :=
  let resultsCount := default (Num (inject_Z 20)) (resultsCount args) in
  let params :=
    URLSearchParams.of_entries
      [("app_id", appId);
       ("app_key", apiKey);
       ("results_per_page", Number_toString env resultsCount);
       ("what", query args)] in
  if JS.truthy (location args)
  then URLSearchParams.append params "where" (default EmptyString (location args))
  else params.

Definition request_url (env : Env) (appId apiKey : string) (args : Args)
  : string :=
  baseUrl +:+ "?" +:+
  URLSearchParams.toString (request_params env appId apiKey args).

(** The inner [try] block of one attempt, given the outcome of its
    [fetch]. The inner [catch] only clears the timer and rethrows. *)
Definition try_block (env : Env) (args : Args) (outcome : FetchOutcome)
  : Completion SearchResult :=
  match outcome with
  | FetchRejects fetchError => Throw fetchError
  | FetchResolves response =>
      if negb (ok response) then
        Return (ErrorResult
                  ("Adzuna API returned error: " +:+
                   JS.toString (exponent_text env) (status response)
                   +:+ " " +:+ statusText response)
                  [])
      else
        match json response with
        | JsonRejects v => Throw v
        | JsonIllShaped e => Throw e
        | JsonPending => Pending
        | JsonResolves data =>
            let jobs :=
              imap (fun i => mapAdzunaJobToJob (toLocaleString env) (uuidv4 env i)
                                               (toISOString env i))
                   (results data) in
            Return (DisplayResult
                      jobs
                      (Z.of_nat (length jobs))
                      (query args)
                      (if JS.truthy (location args)
                       then default EmptyString (location args)
                       else "all locations")
                      ("Found " +:+
                       JS.toString (exponent_text env) (Z.of_nat (length jobs)) +:+
                       " jobs matching " +:+ dquote +:+ query args +:+ dquote +:+
                       (if JS.truthy (location args)
                        then " in " +:+ default EmptyString (location args)
                        else EmptyString)))
        end
  end.

Definition truthy_code (c : CodeValue) : bool :=
  match c with
  | CodeUndefined => false
  | CodeNumber n => negb (n =? 0)
  | CodeString s => JS.truthy_string s
  end.

(** [error.code || error.cause?.code]. *)
Definition errorCode (error : JsError) : CodeValue :=
  if truthy_code (code error) then code error
  else match cause error with
       | Some c => c
       | None => CodeUndefined
       end.

(** [c === s] for a string literal [s]. *)
Definition code_is (c : CodeValue) (s : string) : bool :=
  match c with
  | CodeString s' => String.eqb s' s
  | _ => false
  end.

(** The template-literal rendering of a code. It is asked for only when
    the code is one of three strings. *)
Definition code_text (c : CodeValue) : string :=
  match c with
  | CodeUndefined => "undefined"
  | CodeNumber n => JS.decimal n
  | CodeString s => s
  end.

Definition is_AbortError (error : JsError) : bool :=
  match name error with
  | Some n => String.eqb n "AbortError"
  | None => false
  end.

Definition is_network_code (c : CodeValue) : bool :=
  code_is c "ETIMEDOUT" || code_is c "ECONNRESET" || code_is c "ECONNREFUSED".

(** [Math.pow(2, attempt - 1) * 1000]. *)
Definition backoff_delay (attempt : Z) : Z := 2 ^ (attempt - 1) * 1000.

(** What the outer [catch] clause does with a thrown value: wait and
    [continue], or return, or throw in its turn. *)
Inductive Handled :=
| HContinue (delay : Z)
| HReturn (r : SearchResult)
| HThrow (v : Thrown).

(** The [TypeError] of a property read on [null] or [undefined], with the
    message V8 gives it. *)
Definition property_read_error (value : string) : JsError :=
  {| instanceof_Error := true;
     name := Some "TypeError";
     message := "Cannot read properties of " +:+ value +:+ " (reading 'code')";
     code := CodeUndefined;
     cause := None |}.

(** The clause on a value with properties. *)
Definition catch_object (attempt : Z) (error : JsError) : Handled :=
  let errorCode := errorCode error in
  if is_AbortError error then
    if attempt <? maxRetries then HContinue (backoff_delay attempt)
    else HReturn (ErrorResult
                    ("Adzuna API request timed out after " +:+
                     JS.decimal maxRetries +:+ " attempts")
                    [])
  else if is_network_code errorCode then
    if attempt <? maxRetries then HContinue (backoff_delay attempt)
    else HReturn (ErrorResult
                    ("Network error connecting to Adzuna: " +:+ code_text errorCode)
                    [])
  else
    HReturn (ErrorResult
               (if instanceof_Error error then message error
                else "An unexpected error occurred while searching Adzuna")
               []).

(** The outer [catch] clause. Its first statement reads [error.code]: on
    [null] and [undefined] that read throws, and nothing catches it. *)
Definition catch_clause (attempt : Z) (error : Thrown) : Handled :=
  match error with
  | ThrownNull => HThrow (property_read_error "null")
  | ThrownUndefined => HThrow (property_read_error "undefined")
  | ThrownObject error => catch_object attempt error
  end.

(** [lastError instanceof Error ? lastError.message : ...]. *)
Definition exhausted_result (lastError : option Thrown) : SearchResult :=
  ErrorResult
    (match lastError with
     | Some (ThrownObject e) =>
         if instanceof_Error e then message e
         else "Failed to fetch jobs from Adzuna after multiple retries"
     | _ => "Failed to fetch jobs from Adzuna after multiple retries"
     end)
    [].

(** The [for (let attempt = 1; attempt <= maxRetries; attempt++)] loop, from
    the test of its condition on. [tr] is the trace so far; an iteration
    appends its events. [fuel] bounds the number of condition tests; [None]
    means the bound was reached. *)
Fixpoint retry_loop (fuel : nat) (env : Env) (args : Args) (url : string)
    (attempt : Z) (lastError : option Thrown) (tr : list Event)
  : option (Completion SearchResult * list Event) :=
  match fuel with
  | O => None
  | S fuel' =>
      if attempt <=? maxRetries then
        let outcome := fetch env (S (fetch_calls tr)) url in
        let tr := tr ++ [EvFetch url] in
        match try_block env args outcome with
        | Return r => Some (Return r, tr)
        | Pending => Some (Pending, tr)
        | Throw error =>
            match catch_clause attempt error with
            | HReturn r => Some (Return r, tr)
            | HThrow v => Some (Throw v, tr)
            | HContinue delay =>
                retry_loop fuel' env args url (attempt + 1) (Some error)
                           (tr ++ [EvSleep delay])
            end
        end
      else Some (Return (exhausted_result lastError), tr)
  end.

(** [execute]. The loop tests its condition at most [maxRetries + 1]
    times. *)
Definition execute (env : Env) (args : Args)
  : option (Completion SearchResult * list Event) :=
  let appId := process_env env !! "ADZUNA_APP_ID" in
  let apiKey := process_env env !! "ADZUNA_APP_KEY" in
  if negb (JS.truthy appId) || negb (JS.truthy apiKey) then
    Some (Return (ErrorResult credentials_error []), [])
  else
    let url := request_url env (default EmptyString appId)
                           (default EmptyString apiKey) args in
    retry_loop (S (Z.to_nat maxRetries)) env args url 1 None [].

(** ** The retry state machine *)

(** A failure the loop retries: a timeout, or a network error whose
    extracted code is one of the three listed. *)
Definition transient (error : JsError) : bool :=
  is_AbortError error || is_network_code (errorCode error).

(** How the [try] block of attempt number [k] completes. *)
Definition attempt_completion (env : Env) (args : Args) (url : string) (k : Z)
  : Completion SearchResult :=
  try_block env args (fetch env (Z.to_nat k) url).

(** [run env args url n tr c]: the loop, entered at attempt [n], performs
    the events [tr] and completes as [c]. *)
Inductive run (env : Env) (args : Args) (url : string)
  : Z -> list Event -> Completion SearchResult -> Prop :=
| run_return n r :
    n <= maxRetries ->
    attempt_completion env args url n = Return r ->
    run env args url n [EvFetch url] (Return r)
| run_pending n :
    n <= maxRetries ->
    attempt_completion env args url n = Pending ->
    run env args url n [EvFetch url] Pending
| run_caught n error r :
    n <= maxRetries ->
    attempt_completion env args url n = Throw error ->
    catch_clause n error = HReturn r ->
    run env args url n [EvFetch url] (Return r)
| run_rethrow n error v :
    n <= maxRetries ->
    attempt_completion env args url n = Throw error ->
    catch_clause n error = HThrow v ->
    run env args url n [EvFetch url] (Throw v)
| run_retry n error delay tr c :
    n <= maxRetries ->
    attempt_completion env args url n = Throw error ->
    catch_clause n error = HContinue delay ->
    run env args url (n + 1) tr c ->
    run env args url n (EvFetch url :: EvSleep delay :: tr) c.

(** Both credentials are present and non-empty. *)
Definition configured (env : Env) : bool :=
  JS.truthy (process_env env !! "ADZUNA_APP_ID") &&
  JS.truthy (process_env env !! "ADZUNA_APP_KEY").

(** The request URL [execute] builds in environment [env]. *)
Definition url_of (env : Env) (args : Args) : string :=
  request_url env (default EmptyString (process_env env !! "ADZUNA_APP_ID"))
              (default EmptyString (process_env env !! "ADZUNA_APP_KEY"))
              args.

(** The [k]-th network call of trace [tr] is the event right after [pre]. *)
Definition kth_call (tr pre : list Event) (url : string) (post : list Event)
    (k : Z) : Prop :=
  tr = pre ++ EvFetch url :: post /\ k = Z.of_nat (S (fetch_calls pre)).

(** ** Vocabulary of the properties *)

(** [needle] occurs in [s]. *)
Definition contains (needle s : string) : Prop :=
  exists pre post, s = pre +:+ needle +:+ post.

(** The invariant the data model states for a [SearchResult]. *)
Definition SearchResult_invariant (r : SearchResult) : Prop :=
  (action r = "error" ->
   jobs_of r = [] /\ exists e, error_of r = Some e /\ e <> EmptyString) /\
  (action r = "display" ->
   count_of r = Some (Z.of_nat (length (jobs_of r)))).

(** A number that is neither zero nor [NaN]. *)
Definition nonzero (x : Number) : Prop :=
  match x with
  | NaN => False
  | Inf _ => True
  | Num q => ~ (q == 0)%Q
  end.

(** A [code] that is falsy: absent, zero or the empty string. *)
Definition falsy_code (c : CodeValue) : Prop :=
  c = CodeUndefined \/ c = CodeNumber 0 \/ c = CodeString EmptyString.

(** A count that the bounds 1 and 50 exclude. *)
Definition out_of_bounds (x : Number) : Prop :=
  match x with
  | NaN => True
  | Inf _ => True
  | Num q => (q < inject_Z 1)%Q \/ (inject_Z 50 < q)%Q
  end.

(** The integer [n] as a number. *)
Definition integer (n : Z) : Number := Num (inject_Z n).

(** Lowercasing by the alphabet: a capital letter of [uppers] becomes the
    letter at the same place of [lowers], any other byte stays. *)
Fixpoint lower_in (uppers lowers : string) (c : ascii) : ascii :=
  match uppers, lowers with
  | String u uppers', String l lowers' =>
      if Ascii.eqb c u then l else lower_in uppers' lowers' c
  | _, _ => c
  end.

Fixpoint lowercased (s : string) : string :=
  match s with
  | EmptyString => EmptyString
  | String c rest =>
      String (lower_in "ABCDEFGHIJKLMNOPQRSTUVWXYZ"
                       "abcdefghijklmnopqrstuvwxyz" c)
             (lowercased rest)
  end.

(** ** Sample worlds *)

Module Sample.

(** Digit grouping of the [en-US] locale: a comma before every complete
    group of three digits, counted from the right. *)
Fixpoint group_rev (digits_rev : list ascii) (k : nat) : list ascii :=
  match digits_rev with
  | [] => []
  | d :: rest =>
      match k, rest with
      | 2%nat, _ :: _ => d :: ","%char :: group_rev rest 0
      | _, _ => d :: group_rev rest (S k)
      end
  end.

Definition grouped (digits : string) : string :=
  string_of_list_ascii
    (rev (group_rev (rev (list_ascii_of_string digits)) 0)).

(** A runtime whose default locale is [en-US], on the integers. *)
Definition en_US (x : Number) : string :=
  match x with
  | Num q =>
      let n := Qnum q / Z.pos (Qden q) in
      if n <? 0 then "-" +:+ grouped (JS.decimal (Z.abs n))
      else grouped (JS.decimal n)
  | _ => "NaN"
  end.

(** A runtime whose default locale is [de-DE]: a full stop where [en-US]
    has a comma. *)
Definition de_DE (x : Number) : string :=
  string_of_list_ascii
    ((fun c => if Ascii.eqb c "," then "."%char else c)
       <$> list_ascii_of_string (en_US x)).

Definition credentials : gmap string string :=
  <["ADZUNA_APP_ID" := "my-id"]> (<["ADZUNA_APP_KEY" := "my-key"]> ∅).

Definition abort_error : JsError :=
  {| instanceof_Error := true; name := Some "AbortError";
     message := "This operation was aborted";
     code := CodeNumber 20; cause := None |}.

(** The [TypeError] of a failed [fetch], carrying the system error in its
    [cause]. *)
Definition network_error (c : string) : JsError :=
  {| instanceof_Error := true; name := Some "TypeError";
     message := "fetch failed";
     code := CodeUndefined; cause := Some (CodeString c) |}.

Definition blank_error : JsError :=
  {| instanceof_Error := true; name := Some "Error";
     message := EmptyString;
     code := CodeUndefined; cause := None |}.

Definition job : AdzunaJob.t :=
  {| AdzunaJob.id := "4711";
     AdzunaJob.title := "AI Engineer";
     AdzunaJob.company := {| AdzunaJob.company_display_name := "Acme" |};
     AdzunaJob.location :=
       {| AdzunaJob.location_display_name := "Austin, TX";
          AdzunaJob.area := None |};
     AdzunaJob.description :=
       "Bachelor's degree required. 5 years experience.";
     AdzunaJob.salary_min := Some (integer 80000);
   AdzunaJob.salary_max := Some (integer 120000);
     AdzunaJob.redirect_url := "https://www.adzuna.com/land/ad/4711";
     AdzunaJob.category := None;
     AdzunaJob.contract_type := None;
     AdzunaJob.created := None |}.

Definition with_salary (lo hi : option Z) : AdzunaJob.t :=
  {| AdzunaJob.id := AdzunaJob.id job;
     AdzunaJob.title := AdzunaJob.title job;
     AdzunaJob.company := AdzunaJob.company job;
     AdzunaJob.location := AdzunaJob.location job;
     AdzunaJob.description := AdzunaJob.description job;
     AdzunaJob.salary_min := integer <$> lo;
   AdzunaJob.salary_max := integer <$> hi;
     AdzunaJob.redirect_url := AdzunaJob.redirect_url job;
     AdzunaJob.category := AdzunaJob.category job;
     AdzunaJob.contract_type := AdzunaJob.contract_type job;
     AdzunaJob.created := AdzunaJob.created job |}.

Definition success : FetchOutcome :=
  FetchResolves
    {| status := 200; statusText := "OK";
       json := JsonResolves
               {| results := [job]; count := integer 1; mean := None |} |}.

Definition http_error (code : Z) (text : string) : FetchOutcome :=
  FetchResolves
    {| status := code; statusText := text;
       json := JsonRejects blank_error |}.

(** A world with both credentials whose [k]-th network call has the
    [k]-th outcome of [outcomes] (and fails with a reset beyond them). *)
Definition world (outcomes : list FetchOutcome) : Env :=
  {| process_env := credentials;
     fetch := fun k _ =>
       default (FetchRejects (network_error "ECONNRESET"))
               (outcomes !! pred k);
     uuidv4 := fun i => "uuid-" +:+ JS.decimal (Z.of_nat i);
     toISOString := fun _ => "2025-01-01T00:00:00.000Z";
   toLocaleString := en_US;
   exponent_text := fun _ => "1e+21";
   fraction_text := fun _ => "0.5" |}.

Definition timed_out : FetchOutcome := FetchRejects abort_error.

Definition reset : FetchOutcome := FetchRejects (network_error "ECONNRESET").

Definition too_many_requests : FetchOutcome :=
  http_error 429 "Too Many Requests".

(** The same world without the application key. *)
Definition world_without_key : Env :=
  {| process_env := <["ADZUNA_APP_ID" := "my-id"]> ∅;
     fetch := fun _ _ => success;
     uuidv4 := fun _ => "uuid";
     toISOString := fun _ => "2025-01-01T00:00:00.000Z";
   toLocaleString := en_US;
   exponent_text := fun _ => "1e+21";
   fraction_text := fun _ => "0.5" |}.

Definition search (loc : option string) (n : option Z) : Args :=
  {| query := "AI engineer"; location := loc; resultsCount := integer <$> n |}.

End Sample.

(** ** Vocabulary of the further properties *)

(** The events of [k] attempts in a row, the first of them numbered [n]: a
    network call each, and the backoff wait between two of them. *)
Fixpoint retry_trace (url : string) (n : Z) (k : nat) : list Event :=
  match k with
  | O => []
  | S k' =>
      match k' with
      | O => [EvFetch url]
      | S _ => EvFetch url :: EvSleep (backoff_delay n) :: retry_trace url (n + 1) k'
      end
  end.

(** Milliseconds spent waiting in a trace. *)
Fixpoint total_sleep (tr : list Event) : Z :=
  match tr with
  | [] => 0
  | EvSleep ms :: rest => ms + total_sleep rest
  | EvFetch _ :: rest => total_sleep rest
  end.

Definition query_of (r : SearchResult) : option string :=
  match r with
  | ErrorResult _ _ => None
  | DisplayResult _ _ query _ _ => Some query
  end.

(** The string returned for a failure that is not retried. *)
Definition unexpected_message (error : JsError) : string :=
  if instanceof_Error error then message error
  else "An unexpected error occurred while searching Adzuna".


Definition network_codes : list string :=
  ["ETIMEDOUT"; "ECONNRESET"; "ECONNREFUSED"].

Module MoreSamples.

(** An error that carries a code of its own next to the one of its cause. *)
Definition shadowed_error : JsError :=
  {| instanceof_Error := true; name := Some "TimeoutError";
     message := "The operation timed out";
     code := CodeNumber 23; cause := Some (CodeString "ECONNRESET") |}.

Definition syntax_error : JsError :=
  {| instanceof_Error := true; name := Some "SyntaxError";
     message := "Unexpected token < in JSON at position 0";
     code := CodeUndefined; cause := None |}.

(** A success status with a body that is not JSON. *)
Definition html_body : FetchOutcome :=
  FetchResolves
    {| status := 200; statusText := "OK"; json := JsonRejects syntax_error |}.

Definition two_jobs : FetchOutcome :=
  FetchResolves
    {| status := 200; statusText := "OK";
       json := JsonResolves
                 {| results := [Sample.job; Sample.with_salary None None];
                    count := integer 1500; mean := None |} |}.

(** A world whose application id is set to the empty string. *)
Definition world_with_empty_id : Env :=
  {| process_env :=
       <["ADZUNA_APP_ID" := EmptyString]> (<["ADZUNA_APP_KEY" := "my-key"]> ∅);
     fetch := fun _ _ => Sample.success;
     uuidv4 := fun _ => "uuid";
     toISOString := fun _ => "2025-01-01T00:00:00.000Z";
   toLocaleString := Sample.en_US;
   exponent_text := fun _ => "1e+21";
   fraction_text := fun _ => "0.5" |}.

(** A system error that carries its code itself. *)
Definition refused_error : JsError :=
  {| instanceof_Error := true; name := Some "Error";
     message := "connect ECONNREFUSED 127.0.0.1:443";
     code := CodeString "ECONNREFUSED"; cause := None |}.

Definition refused : FetchOutcome := FetchRejects refused_error.

(** A success status whose body never arrives. *)
Definition stalled_body : FetchOutcome :=
  FetchResolves {| status := 200; statusText := "OK"; json := JsonPending |}.

Definition shouting_job : AdzunaJob.t :=
  {| AdzunaJob.id := "4712";
     AdzunaJob.title := "ENGINEER";
     AdzunaJob.company := {| AdzunaJob.company_display_name := "ACME" |};
     AdzunaJob.location :=
       {| AdzunaJob.location_display_name := "AUSTIN";
          AdzunaJob.area := None |};
     AdzunaJob.description := "BACHELOR REQUIRED. 5 YEARS EXPERIENCE.";
     AdzunaJob.salary_min := None;
     AdzunaJob.salary_max := None;
     AdzunaJob.redirect_url := "https://www.adzuna.com/land/ad/4712";
     AdzunaJob.category := None;
     AdzunaJob.contract_type := None;
     AdzunaJob.created := None |}.

(** The arguments of a search for a page of [x] results. *)
Definition page (x : Number) : Args :=
  {| query := "AI engineer"; location := None; resultsCount := Some x |}.

End MoreSamples.

(** * Properties *)

Example toString_20 : JS.decimal 20 = "20".
Proof. reflexivity. Qed.

Example toString_neg : JS.decimal (-7) = "-7".
Proof. reflexivity. Qed.

Example toLocaleString_80000 : Sample.en_US (integer (80000)) = "80,000".
Proof. reflexivity. Qed.

Example toLocaleString_small : Sample.en_US (integer (999)) = "999".
Proof. reflexivity. Qed.

Example toLocaleString_million : Sample.en_US (integer (1234567)) = "1,234,567".
Proof. reflexivity. Qed.

Example toLocaleString_neg : Sample.en_US (integer (-120000)) = "-120,000".
Proof. reflexivity. Qed.

Example toLowerCase_ex : JS.toLowerCase "Bachelor's DEGREE" = "bachelor's degree".
Proof. reflexivity. Qed.

Example includes_ex : JS.includes "degree" "bachelor's degree" = true.
Proof. reflexivity. Qed.

Example toString_params :
  URLSearchParams.toString [("what", "AI engineer"); ("where", "Zürich, CH")]
  = "what=AI+engineer&where=Z%C3%BCrich%2C+CH".
Proof. reflexivity. Qed.

Example parse_params :
  URLSearchParams.of_url "https://h/p?what=AI+engineer&where=Z%C3%BCrich%2C+CH"
  = [("what", "AI engineer"); ("where", "Zürich, CH")].
Proof. vm_compute. reflexivity. Qed.

Example execute_success :
  execute (Sample.world [Sample.timed_out; Sample.timed_out; Sample.success])
          (Sample.search (Some "Austin, TX") None)
  = Some
      (Return
         (DisplayResult
            [mapAdzunaJobToJob Sample.en_US "uuid-0" "2025-01-01T00:00:00.000Z"
                               Sample.job]
            1 "AI engineer" "Austin, TX"
            ("Found 1 jobs matching " +:+ dquote +:+ "AI engineer" +:+ dquote
             +:+ " in Austin, TX")),
       [EvFetch "https://api.adzuna.com/v1/api/jobs/us/search/1?app_id=my-id&app_key=my-key&results_per_page=20&what=AI+engineer&where=Austin%2C+TX";
        EvSleep 1000;
        EvFetch "https://api.adzuna.com/v1/api/jobs/us/search/1?app_id=my-id&app_key=my-key&results_per_page=20&what=AI+engineer&where=Austin%2C+TX";
        EvSleep 2000;
        EvFetch "https://api.adzuna.com/v1/api/jobs/us/search/1?app_id=my-id&app_key=my-key&results_per_page=20&what=AI+engineer&where=Austin%2C+TX"]).
Proof. vm_compute. reflexivity. Qed.

(** ** Strings *)

Section StringFacts.

Lemma append_nil_l (s : string) : "" +:+ s = s.
Proof. reflexivity. Qed.

Lemma append_cons (c : ascii) (s t : string) :
  String c s +:+ t = String c (s +:+ t).
Proof. reflexivity. Qed.

Lemma append_nil_r (s : string) : s +:+ "" = s.
Proof. induction s as [|c s IH]; [done|]. by rewrite append_cons, IH. Qed.

Lemma append_assoc (s t u : string) : (s +:+ t) +:+ u = s +:+ (t +:+ u).
Proof.
  induction s as [|c s IH]; [done|]. by rewrite !append_cons, IH.
Qed.

Lemma startsWith_spec (p s : string) :
  JS.startsWith p s = true <-> exists post, s = p +:+ post.
Proof.
  revert s. induction p as [|a p IH]; intros s.
  - split; [intros _; by exists s | by destruct s].
  - destruct s as [|b s]; simpl.
    + split; [done | intros [post H]; discriminate H].
    + destruct (Ascii.eqb_spec a b) as [->|Hne].
      * rewrite IH. split; intros [post H]; exists post.
        -- by rewrite append_cons, H.
        -- rewrite append_cons in H. by injection H.
      * split; [done | intros [post H]].
        rewrite append_cons in H. injection H as Hab _. by destruct Hne.
Qed.

Lemma includes_spec (needle s : string) :
  JS.includes needle s = true <->
  exists pre post, s = pre +:+ needle +:+ post.
Proof.
  induction s as [|c s IH]; simpl.
  - rewrite orb_false_r, startsWith_spec. split.
    + intros [post H]. by exists "", post.
    + intros [[|c pre] [post H]]; [by exists post | discriminate H].
  - rewrite orb_true_iff, startsWith_spec, IH. split.
    + intros [[post H] | (pre & post & H)].
      * by exists "", post.
      * exists (String c pre), post. by rewrite append_cons, H.
    + intros ([|c' pre] & post & H).
      * left. by exists post.
      * right. rewrite append_cons in H. injection H as _ H.
        by exists pre, post.
Qed.

Lemma includes_suffix (pre needle : string) :
  JS.includes needle (pre +:+ needle) = true.
Proof. apply includes_spec. exists pre, "". by rewrite append_nil_r. Qed.

Lemma includes_infix (pre needle post : string) :
  JS.includes needle (pre +:+ needle +:+ post) = true.
Proof. apply includes_spec. by exists pre, post. Qed.

End StringFacts.

(** ** Query strings *)

Module URLFacts.
Import URLSearchParams.

Lemma occurs_app sep s t :
  occurs sep (s +:+ t) = occurs sep s || occurs sep t.
Proof.
  induction s as [|c s IH]; [done|].
  rewrite append_cons. simpl. by rewrite IH, orb_assoc.
Qed.

Lemma decode_encode_byte c rest :
  decode (encode_byte c +:+ rest) = String c (decode rest).
Proof. destruct c as [[] [] [] [] [] [] [] []]; reflexivity. Qed.

Lemma decode_encode s : decode (encode s) = s.
Proof.
  induction s as [|c s IH]; [done|].
  simpl. by rewrite decode_encode_byte, IH.
Qed.

Lemma encode_byte_clean c :
  occurs "&" (encode_byte c) = false /\ occurs "=" (encode_byte c) = false.
Proof. destruct c as [[] [] [] [] [] [] [] []]; split; reflexivity. Qed.

Lemma encode_clean s :
  occurs "&" (encode s) = false /\ occurs "=" (encode s) = false.
Proof.
  induction s as [|c s [IH1 IH2]]; [done|].
  simpl. rewrite !occurs_app, IH1, IH2.
  by destruct (encode_byte_clean c) as [-> ->].
Qed.

Lemma cut_app sep a b :
  occurs sep a = false -> cut sep (a +:+ String sep b) = (a, Some b).
Proof.
  induction a as [|c a IH]; simpl.
  - intros _. by rewrite Ascii.eqb_refl.
  - intros [Hc Ha]%orb_false_iff. by rewrite Hc, IH.
Qed.

Lemma cut_none sep a : occurs sep a = false -> cut sep a = (a, None).
Proof.
  induction a as [|c a IH]; simpl; [done|].
  intros [Hc Ha]%orb_false_iff. by rewrite Hc, IH.
Qed.

Lemma pieces_app sep a b :
  occurs sep a = false ->
  pieces sep (a +:+ String sep b) = a :: pieces sep b.
Proof.
  induction a as [|c a IH]; simpl.
  - intros _. by rewrite Ascii.eqb_refl.
  - intros [Hc Ha]%orb_false_iff. by rewrite Hc, IH.
Qed.

Lemma pieces_none sep a : occurs sep a = false -> pieces sep a = [a].
Proof.
  induction a as [|c a IH]; simpl; [done|].
  intros [Hc Ha]%orb_false_iff. by rewrite Hc, IH.
Qed.

Lemma pair_text_clean name value : occurs "&" (pair_text name value) = false.
Proof.
  unfold pair_text. rewrite !occurs_app.
  destruct (encode_clean name) as [-> _].
  by destruct (encode_clean value) as [-> _].
Qed.

Lemma pair_text_nonempty name value : pair_text name value <> "".
Proof.
  unfold pair_text. destruct (encode name); by rewrite ?append_cons.
Qed.

Lemma parse_pair_text name value :
  parse_pair (pair_text name value) = (name, value).
Proof.
  unfold parse_pair, pair_text.
  change ("=" +:+ encode value) with (String "=" (encode value)).
  rewrite cut_app by apply encode_clean.
  simpl. by rewrite !decode_encode.
Qed.

Lemma toString_cons name value rest :
  rest <> [] ->
  toString ((name, value) :: rest) =
  pair_text name value +:+ String "&" (toString rest).
Proof.
  destruct rest as [|p rest]; [done|]. intros _.
  unfold pair_text. by rewrite !append_assoc.
Qed.

(** Parsing a serialized parameter list gives the list back. *)
Lemma parse_toString (params : t) : parse (toString params) = params.
Proof.
  induction params as [|[name value] rest IH]; [done|].
  destruct (decide (rest = [])) as [->|Hne].
  - change (toString [(name, value)]) with (pair_text name value).
    unfold parse. rewrite pieces_none by apply pair_text_clean.
    rewrite filter_cons_True by apply pair_text_nonempty.
    rewrite filter_nil. simpl. by rewrite parse_pair_text.
  - rewrite toString_cons by done.
    unfold parse in *. rewrite pieces_app by apply pair_text_clean.
    rewrite filter_cons_True by apply pair_text_nonempty.
    rewrite fmap_cons, IH. by rewrite parse_pair_text.
Qed.

Lemma of_url_base (query : string) :
  of_url (baseUrl +:+ "?" +:+ query) = parse query.
Proof. reflexivity. Qed.

End URLFacts.

(** ** The retry loop *)

Section Loop.

Context (env : Env) (args : Args) (url : string).

Lemma fetch_calls_app tr1 tr2 :
  fetch_calls (tr1 ++ tr2) = (fetch_calls tr1 + fetch_calls tr2)%nat.
Proof. unfold fetch_calls. by rewrite List.filter_app, length_app. Qed.

Lemma catch_clause_continue n (error : JsError) delay :
  catch_clause n error = HContinue delay ->
  n < maxRetries /\ transient error = true /\ delay = backoff_delay n.
Proof.
  simpl. unfold catch_object, transient.
  destruct (is_AbortError error); simpl.
  - destruct (n <? maxRetries) eqn:Hn; [|done].
    intros [= <-]. split; [lia|done].
  - destruct (is_network_code (errorCode error)); [|done].
    destruct (n <? maxRetries) eqn:Hn; [|done].
    intros [= <-]. split; [lia|done].
Qed.

(** Only a value with properties is retried. *)
Lemma catch_clause_continue_object n (v : Thrown) delay :
  catch_clause n v = HContinue delay ->
  exists error : JsError, v = error.
Proof. destruct v as [| |error]; [done..|]. intros _. by exists error. Qed.

Lemma catch_clause_transient n (error : JsError) :
  transient error = true -> n < maxRetries ->
  catch_clause n error = HContinue (backoff_delay n).
Proof.
  simpl. unfold catch_object, transient. intros Ht Hn.
  apply Z.ltb_lt in Hn. rewrite Hn.
  destruct (is_AbortError error); [done|].
  simpl in Ht. by rewrite Ht.
Qed.

Lemma catch_clause_return n (v : Thrown) r :
  catch_clause n v = HReturn r ->
  exists msg, r = ErrorResult msg [].
Proof.
  destruct v as [| |error]; [done..|]. simpl. unfold catch_object.
  repeat match goal with |- context [if ?b then _ else _] => destruct b end;
    intros [= <-]; eauto.
Qed.

(** The clause throws only on [null] and [undefined]. *)
Lemma catch_clause_throw n (v v' : Thrown) :
  catch_clause n v = HThrow v' ->
  v = ThrownNull /\ v' = property_read_error "null" \/
  v = ThrownUndefined /\ v' = property_read_error "undefined".
Proof.
  destruct v as [| |error]; simpl.
  - intros [= <-]. by left.
  - intros [= <-]. by right.
  - unfold catch_object.
    repeat match goal with |- context [if ?b then _ else _] => destruct b end;
      done.
Qed.

(** The loop function follows the state machine and, given one unit of
    fuel per remaining condition test, runs to completion. *)
Lemma retry_loop_run fuel n lastError tr0 :
  1 <= n <= maxRetries ->
  (Z.to_nat (maxRetries - n) < fuel)%nat ->
  fetch_calls tr0 = Z.to_nat (n - 1) ->
  exists c tr,
    retry_loop fuel env args url n lastError tr0 = Some (c, tr0 ++ tr) /\
    run env args url n tr c.
Proof.
  revert n lastError tr0.
  induction fuel as [|fuel IH]; intros n lastError tr0 Hn Hfuel Hcalls; [lia|].
  simpl. destruct (Z.leb_spec n maxRetries) as [_|Hgt]; [|lia].
  rewrite Hcalls.
  replace (S (Z.to_nat (n - 1))) with (Z.to_nat n) by lia.
  fold (attempt_completion env args url n).
  destruct (attempt_completion env args url n) as [r|error|] eqn:Hbody.
  { exists (Return r), [EvFetch url]. split; [done|].
    apply run_return; [lia|done]. }
  2:{ exists Pending, [EvFetch url]. split; [done|].
      apply run_pending; [lia|done]. }
  destruct (catch_clause n error) as [delay|r|v] eqn:Hcatch.
  2:{ exists (Return r), [EvFetch url]. split; [done|].
      eapply run_caught; [lia|done..]. }
  2:{ exists (Throw v), [EvFetch url]. split; [done|].
      eapply run_rethrow; [lia|done..]. }
  destruct (catch_clause_continue_object _ _ _ Hcatch) as [e ->].
  destruct (catch_clause_continue _ _ _ Hcatch) as (Hlt & _ & _).
  destruct (IH (n + 1) (Some (ThrownObject e))
               ((tr0 ++ [EvFetch url]) ++ [EvSleep delay]))
    as (c & tr & Hloop & Hrun).
  - lia.
  - lia.
  - rewrite !fetch_calls_app, Hcalls. unfold fetch_calls. simpl. lia.
  - exists c, (EvFetch url :: EvSleep delay :: tr). split.
    + rewrite Hloop. by rewrite <- !app_assoc.
    + eapply run_retry; [lia|done..].
Qed.

(** Every attempt of a run makes one network call, and a run entered at
    attempt [n] makes at most [maxRetries + 1 - n] of them. *)
Lemma run_calls_bound n tr c :
  run env args url n tr c ->
  (1 <= fetch_calls tr)%nat /\ Z.of_nat (fetch_calls tr) <= maxRetries + 1 - n.
Proof.
  induction 1 as [n r Hn _|n Hn _|n error r Hn _ _|n error v Hn _ _
                 |n error delay tr c Hn _ _ _ [IH1 IH2]];
    try (unfold fetch_calls; simpl; lia).
  change (fetch_calls (EvFetch url :: EvSleep delay :: tr))
    with (S (fetch_calls tr)). lia.
Qed.

End Loop.

Section Trace.

Context (env : Env) (args : Args) (url : string).

Lemma run_starts_with_fetch n tr c :
  run env args url n tr c -> exists tr', tr = EvFetch url :: tr'.
Proof. destruct 1; eauto. Qed.

Lemma run_fetches_url n tr c u :
  run env args url n tr c -> EvFetch u ∈ tr -> u = url.
Proof.
  induction 1 as [| | | |n error delay tr c _ _ _ _ IH]; intros Hin;
    try (apply list_elem_of_singleton in Hin; congruence).
  apply elem_of_cons in Hin as [Heq|Hin]; [congruence|].
  apply elem_of_cons in Hin as [Heq|Hin]; [done|auto].
Qed.

(** The part of a run from its [k]-th network call on is the run entered
    at attempt [k]. *)
Lemma run_suffix n tr c :
  run env args url n tr c ->
  forall pre post,
    tr = pre ++ EvFetch url :: post ->
    run env args url (n + Z.of_nat (fetch_calls pre)) (EvFetch url :: post) c.
Proof.
  induction 1 as [n r Hn Hbody|n Hn Hbody|n error r Hn Hbody Hcatch
                 |n error v Hn Hbody Hcatch
                 |n error delay tr c Hn Hbody Hcatch Hrun IH];
    intros pre post Htr;
    destruct pre as [|ev [|ev' pre]]; simplify_eq/=;
    rewrite ?Z.add_0_r.
  - by apply run_return.
  - by apply run_pending.
  - by eapply run_caught.
  - by eapply run_rethrow.
  - by eapply run_retry.
  - specialize (IH pre post eq_refl).
    change (fetch_calls (EvFetch url :: EvSleep delay :: pre))
      with (S (fetch_calls pre)).
    by replace (n + Z.of_nat (S (fetch_calls pre)))
      with (n + 1 + Z.of_nat (fetch_calls pre)) by lia.
Qed.

Lemma run_at_call tr c pre post k :
  run env args url 1 tr c ->
  kth_call tr pre url post k ->
  run env args url k (EvFetch url :: post) c.
Proof.
  intros Hrun [-> ->].
  replace (Z.of_nat (S (fetch_calls pre)))
    with (1 + Z.of_nat (fetch_calls pre)) by lia.
  by eapply run_suffix.
Qed.

(** The completion of a run is decided by its last attempt. *)
Lemma run_last_attempt n tr c :
  run env args url n tr c ->
  let k := n + Z.of_nat (fetch_calls tr) - 1 in
  n <= k <= maxRetries /\
  (attempt_completion env args url k = c /\ (forall v, c <> Throw v) \/
   exists v,
     attempt_completion env args url k = Throw v /\
     ((exists r, catch_clause k v = HReturn r /\ c = Return r) \/
      (exists v', catch_clause k v = HThrow v' /\ c = Throw v'))).
Proof.
  induction 1 as [n r Hn Hbody|n Hn Hbody|n error r Hn Hbody Hcatch
                 |n error v Hn Hbody Hcatch
                 |n error delay tr c Hn Hbody Hcatch Hrun IH]; simpl.
  1-4: change (fetch_calls [EvFetch url]) with 1%nat;
       replace (n + Z.of_nat 1 - 1) with n by lia; (split; [lia|]).
  - by left.
  - by left.
  - right. exists error. split; [done|]. left. by exists r.
  - right. exists error. split; [done|]. right. by exists v.
  - change (fetch_calls (EvFetch url :: EvSleep delay :: tr))
      with (S (fetch_calls tr)).
    replace (n + Z.of_nat (S (fetch_calls tr)) - 1)
      with (n + 1 + Z.of_nat (fetch_calls tr) - 1) by lia.
    simpl in IH. destruct IH as [Hk IH]. split; [lia|done].
Qed.

End Trace.

Section Execute.

Context (env : Env) (args : Args).

Lemma execute_not_configured :
  configured env = false ->
  execute env args = Some (Return (ErrorResult credentials_error []), []).
Proof.
  unfold configured, execute. intros H.
  apply andb_false_iff in H as [-> | ->]; [done|].
  by rewrite orb_true_r.
Qed.

Lemma execute_configured :
  configured env = true ->
  exists c tr,
    execute env args = Some (c, tr) /\
    run env args (url_of env args) 1 tr c.
Proof.
  unfold configured, execute. intros [-> ->]%andb_true_iff. simpl.
  destruct (retry_loop_run env args (url_of env args)
              (S (Z.to_nat maxRetries)) 1 None [])
    as (c & tr & Hloop & Hrun); [unfold maxRetries; lia..|done|].
  by exists c, tr.
Qed.

(** [execute] always completes, in one of the ways of [Completion]. *)
Lemma execute_completes :
  exists c tr,
    execute env args = Some (c, tr) /\
    (if configured env then run env args (url_of env args) 1 tr c
     else c = Return (ErrorResult credentials_error []) /\ tr = []).
Proof.
  destruct (configured env) eqn:Hc.
  - by apply execute_configured.
  - eexists _, _. split; [by apply execute_not_configured|done].
Qed.

End Execute.

(** Opens a proof about [execute env args]: names its completion [c], its
    trace [tr] and what is known of them, and offers them as witnesses. *)
Ltac enter_execute env args :=
  destruct (execute_completes env args) as (c & tr & Hexec & Hshape);
  exists c, tr; split; [done|].

Section Classification.

Lemma append_literal_nonempty (c : ascii) (s t : string) :
  String c s +:+ t <> EmptyString.
Proof. by rewrite append_cons. Qed.

Lemma is_AbortError_name error :
  is_AbortError error = true <-> name error = Some "AbortError".
Proof.
  unfold is_AbortError. destruct (name error) as [n|]; [|done].
  rewrite String.eqb_eq. split; congruence.
Qed.

Lemma is_network_code_spec c :
  is_network_code c = true <-> exists s, s ∈ network_codes /\ c = CodeString s.
Proof.
  unfold network_codes. split.
  - unfold is_network_code, code_is. destruct c as [|n|s]; try done.
    rewrite !orb_true_iff, !String.eqb_eq.
    intros [[->| ->]| ->]; eexists; (split; [|done]).
    + apply list_elem_of_here.
    + apply list_elem_of_further, list_elem_of_here.
    + do 2 apply list_elem_of_further. apply list_elem_of_here.
  - intros (s & Hs & ->).
    repeat (apply elem_of_cons in Hs as [->|Hs]; [done|]).
    by apply elem_of_nil in Hs.
Qed.

Lemma is_network_code_text c :
  is_network_code c = true -> code_text c ∈ network_codes.
Proof. intros (s & Hs & ->)%is_network_code_spec. done. Qed.

Lemma network_code_truthy s :
  s ∈ network_codes -> truthy_code (CodeString s) = true.
Proof.
  unfold network_codes. intros Hs.
  repeat (apply elem_of_cons in Hs as [->|Hs]; [done|]).
  by apply elem_of_nil in Hs.
Qed.

(** Which thrown values count as transient, in terms of their fields. *)
Lemma transient_fields error :
  transient error = true <->
  name error = Some "AbortError" \/
  exists s,
    s ∈ network_codes /\
    (code error = CodeString s \/
     truthy_code (code error) = false /\ cause error = Some (CodeString s)).
Proof.
  unfold transient. rewrite orb_true_iff, is_AbortError_name.
  rewrite is_network_code_spec. unfold errorCode. split.
  - intros [Hname|(s & Hs & Hcode)]; [by left|right].
    exists s. split; [done|].
    destruct (truthy_code (code error)); [by left|right].
    split; [done|]. destruct (cause error); congruence.
  - intros [Hname|(s & Hs & [Hcode|[Hfalsy Hcause]])]; [by left|right..];
      exists s; (split; [done|]).
    + by rewrite Hcode, network_code_truthy.
    + by rewrite Hfalsy, Hcause.
Qed.

Lemma catch_clause_unexpected n (error : JsError) :
  transient error = false ->
  catch_clause n error = HReturn (ErrorResult (unexpected_message error) []).
Proof.
  simpl. unfold transient, catch_object. by intros [-> ->]%orb_false_iff.
Qed.

Lemma catch_clause_final (error : JsError) :
  transient error = true ->
  catch_clause maxRetries error
  = HReturn (ErrorResult
               (if is_AbortError error
                then "Adzuna API request timed out after 3 attempts"
                else "Network error connecting to Adzuna: " +:+
                     code_text (errorCode error))
               []).
Proof.
  simpl. unfold transient, catch_object.
  destruct (is_AbortError error); [done|]. simpl. by intros ->.
Qed.

Lemma try_block_error env args outcome msg jobs :
  try_block env args outcome = Return (ErrorResult msg jobs) ->
  exists response,
    outcome = FetchResolves response /\
    ok response = false /\
    msg = "Adzuna API returned error: " +:+
          JS.toString (exponent_text env) (status response)
          +:+ " " +:+ statusText response /\
    jobs = [].
Proof.
  unfold try_block. destruct outcome as [e|response]; [done|].
  destruct (ok response) eqn:Hok; simpl.
  - by destruct (json response).
  - intros [= <- <-]. by exists response.
Qed.

Lemma try_block_display env args outcome jobs count q loc msg :
  try_block env args outcome = Return (DisplayResult jobs count q loc msg) ->
  exists response data,
    outcome = FetchResolves response /\
    ok response = true /\
    json response = JsonResolves data /\
    jobs = imap (fun i => mapAdzunaJobToJob (toLocaleString env) (uuidv4 env i)
                                            (toISOString env i))
                (results data) /\
    count = Z.of_nat (length (results data)) /\
    q = query args /\
    loc = (if JS.truthy (location args)
           then default EmptyString (location args) else "all locations").
Proof.
  unfold try_block. destruct outcome as [e|response]; [done|].
  destruct (ok response) eqn:Hok; simpl; [|done].
  destruct (json response) as [e|data|e|] eqn:Hjson; try done.
  intros [= <- <- <- <- <-]. exists response, data.
  by rewrite length_imap.
Qed.

End Classification.

Section Failures.

Context (env : Env) (args : Args) (url : string).

(** A transient failure of the last attempt ends the run. *)
Lemma run_final_failure c post (error : JsError) :
  run env args url maxRetries (EvFetch url :: post) c ->
  attempt_completion env args url maxRetries = Throw error ->
  transient error = true ->
  post = [] /\
  c = Return (ErrorResult
                (if is_AbortError error
                 then "Adzuna API request timed out after 3 attempts"
                 else "Network error connecting to Adzuna: " +:+
                      code_text (errorCode error))
                []).
Proof.
  intros Hrun Hthrow Ht. pose proof (catch_clause_final error Ht) as Hfinal.
  inversion Hrun; subst; try congruence.
  split; [done|]. congruence.
Qed.

(** A transient failure before the last attempt is followed by the
    backoff wait and the next network call. *)
Lemma run_transient_retry k c post (error : JsError) :
  run env args url k (EvFetch url :: post) c ->
  attempt_completion env args url k = Throw error ->
  transient error = true ->
  k < maxRetries ->
  exists post', post = EvSleep (backoff_delay k) :: EvFetch url :: post'.
Proof.
  intros Hrun Hthrow Ht Hk.
  pose proof (catch_clause_transient k error Ht Hk) as Hretry.
  inversion Hrun as [| | | |n v delay tr c' Hn Hbody Hcatch Hrest];
    subst; try congruence.
  assert (delay = backoff_delay k) as -> by congruence.
  destruct (run_starts_with_fetch _ _ _ _ _ _ Hrest) as [post' ->].
  by exists post'.
Qed.

(** A response with a non-success status ends the run at once. *)
Lemma run_http_error k c post response :
  run env args url k (EvFetch url :: post) c ->
  fetch env (Z.to_nat k) url = FetchResolves response ->
  ok response = false ->
  post = [] /\
  c = Return (ErrorResult
                ("Adzuna API returned error: " +:+
                 JS.toString (exponent_text env) (status response)
                 +:+ " " +:+ statusText response)
                []).
Proof.
  intros Hrun Hfetch Hok.
  assert (attempt_completion env args url k =
          Return (ErrorResult
                    ("Adzuna API returned error: " +:+
                     JS.toString (exponent_text env) (status response) +:+
                     " " +:+ statusText response) [])) as Hbody'.
  { unfold attempt_completion, try_block. by rewrite Hfetch, Hok. }
  inversion Hrun; subst; try congruence.
  split; [done|]. congruence.
Qed.

(** A failure that is not transient ends the run. *)
Lemma run_unexpected k c post (error : JsError) :
  run env args url k (EvFetch url :: post) c ->
  attempt_completion env args url k = Throw error ->
  transient error = false ->
  post = [] /\ c = Return (ErrorResult (unexpected_message error) []).
Proof.
  intros Hrun Hthrow Ht.
  pose proof (catch_clause_unexpected k error Ht) as Hcatch.
  inversion Hrun; subst; try congruence.
  split; [done|]. congruence.
Qed.

(** A rejection with [null] or [undefined] makes the clause throw. *)
Lemma run_nullish k c post (v : Thrown) :
  run env args url k (EvFetch url :: post) c ->
  attempt_completion env args url k = Throw v ->
  v = ThrownNull \/ v = ThrownUndefined ->
  post = [] /\ exists v', catch_clause k v = HThrow v' /\ c = Throw v'.
Proof.
  intros Hrun Hthrow Hv.
  assert (exists v', catch_clause k v = HThrow v') as [v' Hcatch]
    by (destruct Hv as [-> | ->]; by eexists).
  inversion Hrun; subst; try congruence.
  split; [done|]. exists v'. split; [done|]. congruence.
Qed.

End Failures.

Section Determinism.

Context (env : Env) (args : Args) (url : string).

(** The state machine is deterministic: an entry point has one run. *)
Lemma run_deterministic n tr c tr' c' :
  run env args url n tr c -> run env args url n tr' c' ->
  tr = tr' /\ c = c'.
Proof.
  intros Hrun. revert tr' c'.
  induction Hrun as [n r Hn Hbody|n Hn Hbody|n error r Hn Hbody Hcatch
                    |n error v Hn Hbody Hcatch
                    |n error delay tr c Hn Hbody Hcatch Hrun IH];
    intros tr' c' Hrun'.
  1-4: inversion Hrun'; subst; split; congruence.
  inversion Hrun' as [| | | |n' error' delay' tr0 c0 Hn' Hbody' Hcatch' Hrest];
    subst; try congruence.
  rewrite Hbody in Hbody'. injection Hbody' as <-.
  rewrite Hcatch in Hcatch'. injection Hcatch' as <-.
  by destruct (IH _ _ Hrest) as [-> ->].
Qed.

Lemma retry_trace_step n k :
  retry_trace url n (S (S k))
  = EvFetch url :: EvSleep (backoff_delay n) :: retry_trace url (n + 1) (S k).
Proof. reflexivity. Qed.

(** [k] attempts from number [n] on, the first [k - 1] of which fail
    transiently and the last of which returns, make the run of
    [retry_trace]. *)
Lemma run_forward k n r :
  n + Z.of_nat k <= maxRetries ->
  (forall j, n <= j < n + Z.of_nat k ->
             exists error : JsError,
               attempt_completion env args url j = Throw error /\
               transient error = true) ->
  attempt_completion env args url (n + Z.of_nat k) = Return r ->
  run env args url n (retry_trace url n (S k)) (Return r).
Proof.
  revert n. induction k as [|k IH]; intros n Hn Hfail Hlast.
  - rewrite Z.add_0_r in *. by apply run_return.
  - destruct (Hfail n) as (error & Hthrow & Ht); [lia|].
    rewrite retry_trace_step.
    eapply run_retry; [lia | done | |].
    + apply catch_clause_transient; [done|lia].
    + apply IH; [lia | intros j Hj; apply Hfail; lia |].
      by replace (n + 1 + Z.of_nat k) with (n + Z.of_nat (S k)) by lia.
Qed.

(** Every run is a [retry_trace]. *)
Lemma run_trace_shape n tr c :
  run env args url n tr c ->
  exists k, n + Z.of_nat k <= maxRetries /\ tr = retry_trace url n (S k).
Proof.
  induction 1 as [n r Hn _|n Hn _|n error r Hn _ _|n error v Hn _ _
                 |n error delay tr c Hn _ Hcatch _ (k & Hk & ->)].
  1-4: exists 0%nat; split; [lia|done].
  destruct (catch_clause_continue_object _ _ _ Hcatch) as [e ->].
  apply catch_clause_continue in Hcatch as (_ & _ & ->).
  exists (S k). split; [lia|]. by rewrite retry_trace_step.
Qed.

Lemma total_sleep_retry_trace k :
  (1 <= k <= 3)%nat ->
  total_sleep (retry_trace url 1 k) = (2 ^ (Z.of_nat k - 1) - 1) * 1000.
Proof.
  intros Hk. destruct k as [|[|[|[|k]]]]; try lia; reflexivity.
Qed.

End Determinism.

Lemma configured_lookup env :
  configured env = true <->
  exists appId apiKey,
    process_env env !! "ADZUNA_APP_ID" = Some appId /\
    process_env env !! "ADZUNA_APP_KEY" = Some apiKey /\
    appId <> EmptyString /\ apiKey <> EmptyString.
Proof.
  unfold configured. rewrite andb_true_iff. split.
  - destruct (process_env env !! "ADZUNA_APP_ID") as [[|c appId]|]; try by intros [? ?].
    destruct (process_env env !! "ADZUNA_APP_KEY") as [[|c' apiKey]|]; try by intros [? ?].
    intros _. by eexists _, _.
  - intros (appId & apiKey & -> & -> & Hid & Hkey).
    by destruct appId, apiKey.
Qed.

Section Request.

Context (env : Env) (appId apiKey : string) (args : Args).

(** The server reads back exactly the parameters [execute] appended. *)
Lemma of_url_request_url :
  URLSearchParams.of_url (request_url env appId apiKey args)
  = request_params env appId apiKey args.
Proof.
  unfold request_url. rewrite URLFacts.of_url_base.
  apply URLFacts.parse_toString.
Qed.

Lemma request_results_per_page :
  URLSearchParams.getAll (request_params env appId apiKey args)
                         "results_per_page"
  = [Number_toString env (default (integer 20) (resultsCount args))].
Proof. unfold request_params. by destruct (JS.truthy (location args)). Qed.

Lemma request_where :
  URLSearchParams.getAll (request_params env appId apiKey args) "where"
  = match location args with
    | Some l => if decide (l = EmptyString) then [] else [l]
    | None => []
    end.
Proof.
  unfold request_params. destruct (location args) as [[|c l]|]; try done.
Qed.


End Request.

Section LowerCase.

Lemma toLowerCase_app a b :
  JS.toLowerCase (a +:+ b) = JS.toLowerCase a +:+ JS.toLowerCase b.
Proof.
  induction a as [|c a IH]; [done|].
  rewrite append_cons. simpl. by rewrite IH, append_cons.
Qed.

(** The code's lowercasing is lowercasing by the alphabet. *)
Lemma toLowerCase_lowercased s : JS.toLowerCase s = lowercased s.
Proof.
  induction s as [|c s IH]; [done|]. simpl. rewrite IH. f_equal.
  destruct c as [[] [] [] [] [] [] [] []]; reflexivity.
Qed.

(** An occurrence survives lowercasing. *)
Lemma contains_toLowerCase w d :
  contains w d -> contains (JS.toLowerCase w) (JS.toLowerCase d).
Proof.
  intros (pre & post & ->). exists (JS.toLowerCase pre), (JS.toLowerCase post).
  by rewrite !toLowerCase_app.
Qed.

Lemma contains_app w d pre post :
  contains w d -> contains w (pre +:+ d +:+ post).
Proof.
  intros (a & b & ->). exists (pre +:+ a), (b +:+ post).
  by rewrite !append_assoc.
Qed.

Lemma extract_requirements_eq d :
  extract_requirements d
  = (if JS.includes "bachelor" (JS.toLowerCase d) ||
        JS.includes "degree" (JS.toLowerCase d)
     then [requirement_degree] else []) ++
    (if JS.includes "experience" (JS.toLowerCase d)
     then [requirement_experience] else []).
Proof.
  unfold extract_requirements.
  by destruct (_ || _), (JS.includes "experience" _).
Qed.

Lemma includes_grows w pre d post :
  JS.includes w (JS.toLowerCase d) = true ->
  JS.includes w (JS.toLowerCase (pre +:+ d +:+ post)) = true.
Proof.
  rewrite !includes_spec, !toLowerCase_app. apply contains_app.
Qed.

End LowerCase.

Section Kinds.

Context (env : Env) (args : Args) (url : string).

(** The kinds of error result a run returns, told apart by its last
    attempt. *)
Lemma run_error_kinds tr msg jobs :
  run env args url 1 tr (Return (ErrorResult msg jobs)) ->
  jobs = [] /\
  ((exists response,
       fetch env (fetch_calls tr) url = FetchResolves response /\
       ok response = false /\
       msg = "Adzuna API returned error: " +:+
             JS.toString (exponent_text env) (status response) +:+ " " +:+
             statusText response) \/
   (exists error : JsError,
       attempt_completion env args url (Z.of_nat (fetch_calls tr))
       = Throw error /\
       (fetch_calls tr = 3%nat /\ is_AbortError error = true /\
        msg = "Adzuna API request timed out after 3 attempts" \/
        fetch_calls tr = 3%nat /\ is_AbortError error = false /\
        is_network_code (errorCode error) = true /\
        msg = "Network error connecting to Adzuna: " +:+
              code_text (errorCode error) \/
        transient error = false /\ msg = unexpected_message error))).
Proof.
  intros Hrun.
  pose proof (run_calls_bound _ _ _ _ _ _ Hrun) as [Hpos Hmax].
  apply run_last_attempt in Hrun as [Hk Hlast].
  replace (1 + Z.of_nat (fetch_calls tr) - 1)
    with (Z.of_nat (fetch_calls tr)) in * by lia.
  destruct Hlast as [[Hbody _]|(v & Hthrow & [(r & Hcatch & [= <-])|(v' & _ & [=])])].
  - unfold attempt_completion in Hbody.
    apply try_block_error in Hbody as (response & Hfetch & Hok & -> & ->).
    rewrite Nat2Z.id in Hfetch. split; [done|]. left. by exists response.
  - destruct v as [| |error]; [done..|].
    destruct (transient error) eqn:Ht.
    + destruct (Z.lt_ge_cases (Z.of_nat (fetch_calls tr)) maxRetries) as [Hlt|Hge].
      { by rewrite catch_clause_transient in Hcatch. }
      assert (Z.of_nat (fetch_calls tr) = maxRetries) as Hthree by lia.
      rewrite Hthree, catch_clause_final in Hcatch by done.
      injection Hcatch as <- <-. split; [done|]. right.
      exists error. split; [done|].
      unfold transient in Ht. unfold maxRetries in Hthree.
      destruct (is_AbortError error).
      * left. split; [lia|done].
      * right; left. split; [lia|done].
    + rewrite catch_clause_unexpected in Hcatch by done.
      injection Hcatch as <- <-. split; [done|]. right.
      exists error. split; [done|]. right; right. done.
Qed.

(** A run that returns a display result got it from its last response. *)
Lemma run_display tr jobs count q loc msg :
  run env args url 1 tr (Return (DisplayResult jobs count q loc msg)) ->
  exists response data,
    fetch env (fetch_calls tr) url = FetchResolves response /\
    ok response = true /\
    json response = JsonResolves data /\
    jobs = imap (fun i => mapAdzunaJobToJob (toLocaleString env) (uuidv4 env i)
                                            (toISOString env i))
                (results data) /\
    count = Z.of_nat (length (results data)) /\
    q = query args /\
    loc = (if JS.truthy (location args)
           then default EmptyString (location args) else "all locations").
Proof.
  intros Hrun.
  pose proof (run_calls_bound _ _ _ _ _ _ Hrun) as [Hpos _].
  apply run_last_attempt in Hrun as [_ Hlast].
  replace (1 + Z.of_nat (fetch_calls tr) - 1)
    with (Z.of_nat (fetch_calls tr)) in * by lia.
  destruct Hlast as [[Hbody _]|(v & _ & [(r & Hcatch & [= <-])|(v' & _ & [=])])].
  - unfold attempt_completion in Hbody. rewrite Nat2Z.id in Hbody.
    apply try_block_display in Hbody
      as (response & data & Hfetch & Hok & Hjson & Hrest).
    by exists response, data.
  - by apply catch_clause_return in Hcatch as [m [=]].
Qed.

End Kinds.

(** ** Properties of [execute] *)

(** C1. The operation is meant never to throw and always to return a
    [SearchResult]. The code does not achieve it. When [fetch] rejects with
    [null], the first statement of the [catch] clause reads [error.code],
    which throws a [TypeError] that nothing catches: [execute] throws. And
    when a response with a success status has a body that never arrives,
    the abort timer being already cleared, [execute] neither returns nor
    throws. *)
Theorem execute_can_throw :
  execute (Sample.world [FetchRejects ThrownNull]) (Sample.search None None)
  = Some (Throw (property_read_error "null"),
          [EvFetch (url_of (Sample.world [FetchRejects ThrownNull])
                           (Sample.search None None))]) /\
  execute (Sample.world [MoreSamples.stalled_body]) (Sample.search None None)
  = Some (Pending,
          [EvFetch (url_of (Sample.world [MoreSamples.stalled_body])
                           (Sample.search None None))]).
Proof. split; vm_compute; reflexivity. Qed.

(** C2, as stated, fails: when an attempt throws an [Error] whose message
    is empty and which is not retried, the result is tagged "error" and its
    error string is empty. *)
Lemma result_invariant_counterexample :
  exists tr,
    execute (Sample.world [FetchRejects Sample.blank_error])
            (Sample.search None None)
    = Some (Return (ErrorResult EmptyString []), tr) /\
    ~ SearchResult_invariant (ErrorResult EmptyString []).
Proof.
  eexists. split; [vm_compute; reflexivity|].
  intros [Herr _]. destruct (Herr eq_refl) as (_ & e & [= <-] & Hne).
  by apply Hne.
Qed.

(** C2, amended. Every result [execute] returns that is tagged "error" has
    an empty job list, and its error string is non-empty unless the last
    attempt made threw an [Error] that is not retried (neither a timeout
    nor one of the three network errors) and whose message is empty, which
    is returned as it is; every result tagged "display" has [count] equal
    to the length of its job list. *)
Theorem execute_result_invariant (env : Env) (args : Args) :
  exists c tr,
    execute env args = Some (c, tr) /\
    forall r,
      c = Return r ->
      (action r = "error" ->
       jobs_of r = [] /\
       exists e,
         error_of r = Some e /\
         (e = EmptyString ->
          exists error : JsError,
            attempt_completion env args (url_of env args)
                               (Z.of_nat (fetch_calls tr)) = Throw error /\
            transient error = false /\
            instanceof_Error error = true /\
            message error = EmptyString)) /\
      (action r = "display" ->
       count_of r = Some (Z.of_nat (length (jobs_of r)))).
Proof.
  enter_execute env args. intros r ->.
  destruct (configured env).
  - destruct r as [msg jobs|jobs count q loc m].
    + split; [intros _|done].
      destruct (run_error_kinds _ _ _ _ _ _ Hshape) as [-> Hkinds].
      split; [done|]. exists msg. split; [done|]. intros ->.
      destruct Hkinds
        as [(response & _ & _ & Hmsg)
           |(error & Hthrow & [(_ & _ & Hmsg)|[(_ & _ & _ & Hmsg)|[Ht Hmsg]]])];
        try discriminate Hmsg;
        try (symmetry in Hmsg; by apply append_literal_nonempty in Hmsg).
      exists error. unfold unexpected_message in Hmsg.
      destruct (instanceof_Error error); [|discriminate Hmsg].
      by rewrite <- Hmsg.
    + split; [done|intros _].
      destruct (run_display _ _ _ _ _ _ _ _ _ Hshape)
        as (response & data & _ & _ & _ & -> & -> & _).
      simpl. by rewrite length_imap.
  - destruct Hshape as [[= ->] _]. split; [intros _|done].
    split; [done|]. by exists credentials_error.
Qed.

Lemma execute_result_invariant_witness :
  (exists tr (error : JsError),
      execute (Sample.world [Sample.timed_out; FetchRejects Sample.blank_error])
              (Sample.search None None)
      = Some (Return (ErrorResult EmptyString []), tr) /\
      attempt_completion
        (Sample.world [Sample.timed_out; FetchRejects Sample.blank_error])
        (Sample.search None None)
        (url_of (Sample.world [Sample.timed_out; FetchRejects Sample.blank_error])
                (Sample.search None None))
        2 = Throw error /\
      transient error = false /\ message error = EmptyString) /\
  (exists r tr,
      execute (Sample.world [Sample.success]) (Sample.search None None)
      = Some (Return r, tr) /\
      action r = "display" /\
      count_of r = Some (Z.of_nat (length (jobs_of r)))).
Proof.
  split.
  - destruct (execute_result_invariant
                (Sample.world [Sample.timed_out; FetchRejects Sample.blank_error])
                (Sample.search None None))
      as (c & tr & Hexec & Hinv).
    assert (c = Return (ErrorResult EmptyString []) /\ fetch_calls tr = 2%nat)
      as [-> Hcalls].
    { vm_compute in Hexec. by injection Hexec as <- <-. }
    destruct (Hinv _ eq_refl) as [Herr _].
    destruct (Herr eq_refl) as (_ & e & [= <-] & Hempty).
    destruct (Hempty eq_refl) as (error & Hthrow & Ht & _ & Hmsg).
    rewrite Hcalls in Hthrow. by exists tr, error.
  - destruct (execute_result_invariant (Sample.world [Sample.success])
                                       (Sample.search None None))
      as (c & tr & Hexec & Hinv).
    assert (exists r, c = Return r /\ action r = "display") as (r & -> & Hact).
    { vm_compute in Hexec. injection Hexec as <- _. by eexists. }
    exists r, tr. split; [done|]. split; [done|].
    by apply (Hinv r eq_refl).
Defined.

Lemma falsy_code_spec c : falsy_code c -> truthy_code c = false.
Proof. by intros [->|[->| ->]]. Qed.

(** C3. Whenever an attempt fails with a timeout (a thrown value named
    AbortError) or with a network error whose code is ETIMEDOUT, ECONNRESET
    or ECONNREFUSED, carried by the error itself or, when the error has no
    code of its own, by its cause, and the attempt number [k] is below
    [maxRetries], [execute] waits [2^(k-1) * 1000] milliseconds and then
    makes the next network call; and no invocation makes more than three
    network calls. *)
Theorem transient_failure_is_retried (env : Env) (args : Args) :
  exists c tr,
    execute env args = Some (c, tr) /\
    (fetch_calls tr <= 3)%nat /\
    forall pre post k (error : JsError),
      kth_call tr pre (url_of env args) post k ->
      attempt_completion env args (url_of env args) k = Throw error ->
      name error = Some "AbortError" \/
      (exists s,
          s ∈ ["ETIMEDOUT"; "ECONNRESET"; "ECONNREFUSED"] /\
          (code error = CodeString s \/
           falsy_code (code error) /\ cause error = Some (CodeString s))) ->
      k < maxRetries ->
      exists post',
        post = EvSleep (2 ^ (k - 1) * 1000) :: EvFetch (url_of env args) :: post'.
Proof.
  enter_execute env args.
  destruct (configured env).
  - split.
    + apply run_calls_bound in Hshape as [_ Hbound].
      unfold maxRetries in Hbound. lia.
    + intros pre post k error Hcall Hthrow Hkind Hk.
      eapply run_transient_retry; [|done| |done].
      * by eapply run_at_call.
      * apply transient_fields.
        destruct Hkind as [Hname|(s & Hs & [Hcode|[Hfalsy Hcause]])];
          [by left|right; exists s..]; (split; [done|]); [by left|right].
        split; [by apply falsy_code_spec|done].
  - destruct Hshape as [_ ->]. split; [unfold fetch_calls; simpl; lia|].
    intros [|ev pre] post k error [Htr _]; discriminate Htr.
Qed.

Lemma transient_failure_is_retried_witness :
  exists c u post,
    execute (Sample.world [MoreSamples.refused; Sample.reset; Sample.success])
            (Sample.search None None)
    = Some (c, EvFetch u :: EvSleep 1000 :: EvFetch u ::
               EvSleep 2000 :: EvFetch u :: post).
Proof.
  set (env := Sample.world [MoreSamples.refused; Sample.reset; Sample.success]).
  set (args := Sample.search None None).
  destruct (transient_failure_is_retried env args)
    as (c & tr & Hexec & _ & Hretry).
  assert (exists post, tr = EvFetch (url_of env args) :: post) as [post ->].
  { vm_compute in Hexec. injection Hexec as _ <-. by eexists. }
  destruct (Hretry [] post 1 MoreSamples.refused_error) as [post' ->].
  { by split. }
  { reflexivity. }
  { right. exists "ECONNREFUSED". split.
    - do 2 apply list_elem_of_further. apply list_elem_of_here.
    - by left. }
  { reflexivity. }
  destruct (Hretry [EvFetch (url_of env args); EvSleep (2 ^ (1 - 1) * 1000)]
                   post' 2 (Sample.network_error "ECONNRESET"))
    as [post'' ->].
  { by split. }
  { reflexivity. }
  { right. exists "ECONNRESET". split.
    - apply list_elem_of_further, list_elem_of_here.
    - right. split; [by left|reflexivity]. }
  { reflexivity. }
  by exists c, (url_of env args), post''.
Defined.

(** C4, as stated, fails: when the last attempt fails with a retryable
    network error, the error string names the error code and does not
    contain the number of attempts made. *)
Lemma final_network_error_counterexample :
  exists tr msg,
    execute (Sample.world [Sample.reset; Sample.reset; Sample.reset])
            (Sample.search None None)
    = Some (Return (ErrorResult msg []), tr) /\
    fetch_calls tr = 3%nat /\
    msg = "Network error connecting to Adzuna: ECONNRESET" /\
    JS.includes (JS.decimal (Z.of_nat (fetch_calls tr))) msg = false.
Proof.
  eexists _, _. split; [vm_compute; reflexivity|].
  vm_compute. done.
Qed.

(** C4, amended. When the last attempt (number [maxRetries]) fails with a
    timeout, [execute] returns an error result whose string says that the
    request timed out after 3 attempts; when it fails with a retryable
    network error, the error string says that a network error occurred and
    names the error code, one of ETIMEDOUT, ECONNRESET and ECONNREFUSED. *)
Theorem final_attempt_failure (env : Env) (args : Args) :
  exists c tr,
    execute env args = Some (c, tr) /\
    forall pre post (error : JsError),
      kth_call tr pre (url_of env args) post maxRetries ->
      attempt_completion env args (url_of env args) maxRetries = Throw error ->
      transient error = true ->
      post = [] /\
      exists r,
        c = Return r /\
        jobs_of r = [] /\
        (is_AbortError error = true ->
         error_of r = Some "Adzuna API request timed out after 3 attempts") /\
        (is_AbortError error = false ->
         error_of r = Some ("Network error connecting to Adzuna: " +:+
                            code_text (errorCode error)) /\
         code_text (errorCode error)
           ∈ ["ETIMEDOUT"; "ECONNRESET"; "ECONNREFUSED"]).
Proof.
  enter_execute env args.
  intros pre post error Hcall Hthrow Ht.
  destruct (configured env).
  - destruct (run_final_failure env args (url_of env args) c post error)
      as [-> ->]; [by eapply run_at_call|done..|].
    split; [done|]. eexists. split; [done|]. split; [done|].
    split; intros Habort; rewrite Habort; [done|].
    split; [done|]. apply is_network_code_text.
    unfold transient in Ht. by rewrite Habort in Ht.
  - destruct Hshape as [_ ->]. destruct Hcall as [Htr _].
    destruct pre; discriminate Htr.
Qed.

Lemma final_attempt_failure_witness :
  exists r tr,
    execute (Sample.world [Sample.timed_out; Sample.timed_out; Sample.timed_out])
            (Sample.search None None)
    = Some (Return r, tr) /\
    error_of r = Some "Adzuna API request timed out after 3 attempts".
Proof.
  set (env := Sample.world [Sample.timed_out; Sample.timed_out; Sample.timed_out]).
  destruct (final_attempt_failure env (Sample.search None None))
    as (c & tr & Hexec & Hfinal).
  set (u := url_of env (Sample.search None None)) in *.
  assert (tr = [EvFetch u; EvSleep 1000; EvFetch u; EvSleep 2000; EvFetch u])
    as Htr.
  { vm_compute in Hexec. by injection Hexec as _ <-. }
  destruct (Hfinal [EvFetch u; EvSleep 1000; EvFetch u; EvSleep 2000] []
                   Sample.abort_error)
    as (_ & r & -> & _ & Herr & _);
    [by split | reflexivity | reflexivity |].
  exists r, tr. split; [done|]. by apply Herr.
Defined.

(** C5. Whenever a response with a non-success status is received,
    [execute] makes no further attempt: the network call that received it
    is the last event of the invocation, and the result is tagged "error"
    with an error string that contains the numeric status and the status
    text. *)
Theorem http_error_is_final (env : Env) (args : Args) :
  exists c tr,
    execute env args = Some (c, tr) /\
    forall pre post k response,
      kth_call tr pre (url_of env args) post k ->
      fetch env (Z.to_nat k) (url_of env args) = FetchResolves response ->
      ok response = false ->
      post = [] /\
      exists r,
        c = Return r /\
        action r = "error" /\
        jobs_of r = [] /\
        exists e,
          error_of r = Some e /\
          e = "Adzuna API returned error: " +:+
              JS.toString (exponent_text env) (status response)
              +:+ " " +:+ statusText response /\
          JS.includes (JS.toString (exponent_text env) (status response)) e
          = true /\
          JS.includes (statusText response) e = true.
Proof.
  enter_execute env args.
  intros pre post k response Hcall Hfetch Hok.
  destruct (configured env).
  - destruct (run_http_error env args (url_of env args) k c post response)
      as [-> ->]; [by eapply run_at_call|done..|].
    split; [done|]. eexists. split; [done|].
    repeat (split; [done|]). eexists. split; [done|]. split; [done|]. split.
    + apply includes_infix.
    + rewrite <- !append_assoc. apply includes_suffix.
  - destruct Hshape as [_ ->]. destruct Hcall as [Htr _].
    destruct pre; discriminate Htr.
Qed.

Lemma http_error_is_final_witness :
  exists r,
    execute (Sample.world [Sample.too_many_requests])
            (Sample.search None None)
    = Some (Return r,
            [EvFetch (url_of (Sample.world [Sample.too_many_requests])
                             (Sample.search None None))]) /\
    error_of r = Some "Adzuna API returned error: 429 Too Many Requests".
Proof.
  destruct (http_error_is_final
              (Sample.world [Sample.too_many_requests])
              (Sample.search None None))
    as (c & tr & Hexec & Hfinal).
  assert (exists post,
             tr = EvFetch (url_of (Sample.world [Sample.too_many_requests])
                                  (Sample.search None None)) :: post)
    as [post ->].
  { vm_compute in Hexec. injection Hexec as _ <-. by eexists. }
  destruct (Hfinal [] post 1 {| status := 429; statusText := "Too Many Requests";
                                json := JsonRejects Sample.blank_error |})
    as (-> & r & -> & _ & _ & e & He & -> & _);
    [by split | reflexivity | reflexivity |].
  by exists r.
Defined.

(** C6. If either credential is missing from the environment, [execute]
    returns at once an error result whose message names ADZUNA_APP_ID and
    ADZUNA_APP_KEY and whose job list is empty, and makes no network
    call. *)
Theorem missing_credentials (env : Env) (args : Args) :
  process_env env !! "ADZUNA_APP_ID" = None \/
  process_env env !! "ADZUNA_APP_KEY" = None ->
  exists msg tr,
    execute env args = Some (Return (ErrorResult msg []), tr) /\
    tr = [] /\
    fetch_calls tr = 0%nat /\
    JS.includes "ADZUNA_APP_ID" msg = true /\
    JS.includes "ADZUNA_APP_KEY" msg = true.
Proof.
  intros Hmissing. exists credentials_error, [].
  split; [|done]. apply execute_not_configured.
  unfold configured. destruct Hmissing as [-> | ->]; [done|].
  apply andb_false_r.
Qed.

Lemma missing_credentials_witness :
  exists msg,
    execute Sample.world_without_key (Sample.search None None)
    = Some (Return (ErrorResult msg []), []).
Proof.
  destruct (missing_credentials Sample.world_without_key
                                (Sample.search None None))
    as (msg & tr & Hexec & -> & _).
  - right. reflexivity.
  - by exists msg.
Defined.

Lemma within_bounds_spec x :
  within_bounds x = true <->
  exists q, x = Num q /\ (inject_Z 1 <= q)%Q /\ (q <= inject_Z 50)%Q.
Proof.
  destruct x as [|neg|q]; simpl.
  - split; [done|]. by intros (q & [=] & _).
  - split; [done|]. by intros (q & [=] & _).
  - rewrite andb_true_iff, !Qle_bool_iff. split.
    + intros [? ?]. by exists q.
    + by intros (q' & [= <-] & ? & ?).
Qed.

Lemma out_of_bounds_spec x : out_of_bounds x -> within_bounds x = false.
Proof.
  intros Hout. destruct (within_bounds x) eqn:Hin; [|done].
  apply within_bounds_spec in Hin as (q & -> & Hlo & Hhi).
  destruct Hout as [Hlt|Hlt].
  - by apply Qlt_not_le in Hlt.
  - by apply Qlt_not_le in Hlt.
Qed.

(** C7, as stated, fails: [execute] neither clamps nor rejects. Given a
    count of 100 it sends [results_per_page=100]. *)
Lemma unvalidated_count_counterexample :
  exists c u,
    execute (Sample.world [Sample.success]) (Sample.search None (Some 100))
    = Some (c, [EvFetch u]) /\
    URLSearchParams.getAll (URLSearchParams.of_url u) "results_per_page"
    = ["100"].
Proof.
  eexists _, _. split; [vm_compute; reflexivity|].
  vm_compute. done.
Qed.

(** C7, amended. The bounds are those of [inputSchema] alone: it rejects
    every [resultsCount] below 1 or above 50, and [NaN]; [execute] sends the
    count it is given. So for arguments that passed [inputSchema], the
    [results_per_page] parameter of every request URL is the rendering of a
    number between 1 and 50, which need not be an integer. *)
Theorem resultsCount_bounds (raw : Args) :
  (forall x,
      resultsCount raw = Some x -> out_of_bounds x -> inputSchema raw = None) /\
  (forall args,
      inputSchema raw = Some args ->
      exists q,
        (inject_Z 1 <= q)%Q /\ (q <= inject_Z 50)%Q /\
        resultsCount args = Some (Num q) /\
        forall env,
          exists c tr,
            execute env args = Some (c, tr) /\
            forall u,
              EvFetch u ∈ tr ->
              URLSearchParams.getAll (URLSearchParams.of_url u)
                                     "results_per_page"
              = [Number_toString env (Num q)]).
Proof.
  unfold inputSchema. split.
  - intros x -> Hout. by rewrite out_of_bounds_spec.
  - intros args Haccepted.
    assert (exists q, (inject_Z 1 <= q)%Q /\ (q <= inject_Z 50)%Q /\
                      resultsCount args = Some (Num q))
      as (q & Hlo & Hhi & Hcount).
    { destruct (resultsCount raw) as [x|] eqn:Hraw.
      - destruct (within_bounds x) eqn:Hin; [|done].
        injection Haccepted as <-.
        apply within_bounds_spec in Hin as (q & -> & ? & ?). by exists q.
      - injection Haccepted as <-. exists (inject_Z 20). by repeat split. }
    exists q. repeat (split; [done|]). intros env.
    enter_execute env args. intros u Hin.
    destruct (configured env).
    + rewrite (run_fetches_url _ _ _ _ _ _ _ Hshape Hin).
      unfold url_of. rewrite of_url_request_url, request_results_per_page.
      by rewrite Hcount.
    + destruct Hshape as [_ ->]. by apply elem_of_nil in Hin.
Qed.

Lemma resultsCount_bounds_witness :
  inputSchema (MoreSamples.page (integer 100)) = None /\
  inputSchema (MoreSamples.page NaN) = None /\
  exists c u,
    execute (Sample.world [Sample.success]) (MoreSamples.page (Num (3 # 2)))
    = Some (c, [EvFetch u]) /\
    URLSearchParams.getAll (URLSearchParams.of_url u) "results_per_page"
    = [Number_toString (Sample.world [Sample.success]) (Num (3 # 2))].
Proof.
  split; [|split].
  - apply (resultsCount_bounds (MoreSamples.page (integer 100)))
      with (x := integer 100); [reflexivity|]. right. reflexivity.
  - by apply (resultsCount_bounds (MoreSamples.page NaN)) with (x := NaN).
  - destruct (resultsCount_bounds (MoreSamples.page (Num (3 # 2))))
      as [_ Haccepted].
    destruct (Haccepted _ eq_refl) as (q & _ & _ & [= <-] & Hexec).
    destruct (Hexec (Sample.world [Sample.success]))
      as (c & tr & Hrun & Hurl).
    assert (exists u, tr = [EvFetch u]) as [u ->].
    { vm_compute in Hrun. injection Hrun as _ <-. by eexists. }
    exists c, u. split; [done|].
    apply Hurl, list_elem_of_singleton. reflexivity.
Defined.

(** ** Properties of [mapAdzunaJobToJob] *)

Lemma truthy_number_nonzero x :
  JS.truthy_number (Some x) = true <-> nonzero x.
Proof.
  destruct x as [|neg|q]; simpl; [done..|].
  unfold Qeq. simpl. rewrite Z.mul_1_r, negb_true_iff, Z.eqb_neq. done.
Qed.

Lemma truthy_number_zero x :
  ~ nonzero x -> JS.truthy_number (Some x) = false.
Proof.
  intros Hzero. destruct (JS.truthy_number (Some x)) eqn:Ht; [|done].
  by apply truthy_number_nonzero in Ht.
Qed.

(** C8, as stated, fails: a minimum of 0 counts as absent, so a job whose
    two salary bounds are present gets no salary at all. *)
Lemma zero_salary_counterexample :
  Job.salary (mapAdzunaJobToJob Sample.en_US "id" "now"
                (Sample.with_salary (Some 0) (Some 50000))) = None /\
  Job.salary (mapAdzunaJobToJob Sample.en_US "id" "now"
                (Sample.with_salary (Some 0) (Some 50000)))
  <> Some ("$" +:+ Sample.en_US (integer 0) +:+ " - $" +:+
           Sample.en_US (integer 50000)).
Proof. split; [reflexivity | discriminate]. Qed.

(** C8, amended. With each number rendered by [toLocaleString()] in the
    default locale of the runtime (which gives thousands separators under
    en-US): if [salary_min] and [salary_max] are both present and neither
    zero nor [NaN], the salary is "$<min> - $<max>"; if [salary_min] is
    present and neither zero nor [NaN] while [salary_max] is absent, zero
    or [NaN], it is "$<min>+"; if [salary_min] is absent, zero or [NaN],
    and so in particular if neither bound is present, the salary field is
    absent. *)
Theorem salary_formatting (format : Number -> string)
    (fresh_id now : string) (adzunaJob : AdzunaJob.t) :
  let salary := Job.salary (mapAdzunaJobToJob format fresh_id now adzunaJob) in
  (forall lo hi,
      AdzunaJob.salary_min adzunaJob = Some lo -> nonzero lo ->
      AdzunaJob.salary_max adzunaJob = Some hi -> nonzero hi ->
      salary = Some ("$" +:+ format lo +:+ " - $" +:+ format hi)) /\
  (forall lo,
      AdzunaJob.salary_min adzunaJob = Some lo -> nonzero lo ->
      AdzunaJob.salary_max adzunaJob = None \/
      (exists hi, AdzunaJob.salary_max adzunaJob = Some hi /\ ~ nonzero hi) ->
      salary = Some ("$" +:+ format lo +:+ "+")) /\
  (AdzunaJob.salary_min adzunaJob = None \/
   (exists lo, AdzunaJob.salary_min adzunaJob = Some lo /\ ~ nonzero lo) ->
   salary = None).
Proof.
  simpl. unfold format_salary. repeat split.
  - intros lo hi -> Hlo -> Hhi.
    by rewrite !(proj2 (truthy_number_nonzero _)).
  - intros lo -> Hlo [-> |(hi & -> & Hhi)];
      rewrite (proj2 (truthy_number_nonzero lo)) by done.
    + done.
    + by rewrite (truthy_number_zero hi).
  - intros [-> |(lo & -> & Hlo)]; [done|].
    by rewrite (truthy_number_zero lo).
Qed.

Lemma salary_formatting_witness :
  Job.salary (mapAdzunaJobToJob Sample.en_US "id" "now" Sample.job)
  = Some "$80,000 - $120,000" /\
  Job.salary (mapAdzunaJobToJob Sample.de_DE "id" "now" Sample.job)
  = Some "$80.000 - $120.000" /\
  Job.salary (mapAdzunaJobToJob Sample.en_US "id" "now"
                (Sample.with_salary (Some 80000) None))
  = Some "$80,000+" /\
  Job.salary (mapAdzunaJobToJob Sample.en_US "id" "now"
                (Sample.with_salary None None))
  = None.
Proof.
  assert (nonzero (integer 80000) /\ nonzero (integer 120000)) as [Hlo Hhi]
    by (split; discriminate).
  split; [|split; [|split]].
  - by apply (salary_formatting Sample.en_US "id" "now" Sample.job)
      with (lo := integer 80000) (hi := integer 120000).
  - by apply (salary_formatting Sample.de_DE "id" "now" Sample.job)
      with (lo := integer 80000) (hi := integer 120000).
  - apply (salary_formatting Sample.en_US "id" "now"
             (Sample.with_salary (Some 80000) None))
      with (lo := integer 80000); [reflexivity | done | left; reflexivity].
  - apply (salary_formatting Sample.en_US "id" "now"
             (Sample.with_salary None None)).
    left; reflexivity.
Defined.

(** C9. The requirements of a mapped job come from two independent checks
    on the description with its capital letters A to Z replaced by their
    small letters: "Bachelor's degree or equivalent experience" is listed
    exactly when it contains "bachelor" or "degree", and "Relevant
    professional experience" exactly when it contains "experience"; nothing
    else is ever listed, each at most once, and the degree requirement
    comes first. *)
Theorem requirements_extraction (format : Number -> string)
    (fresh_id now : string) (adzunaJob : AdzunaJob.t) :
  let descLower := lowercased (AdzunaJob.description adzunaJob) in
  let requirements :=
    Job.requirements (mapAdzunaJobToJob format fresh_id now adzunaJob) in
  ("Bachelor's degree or equivalent experience" ∈ requirements <->
   contains "bachelor" descLower \/ contains "degree" descLower) /\
  ("Relevant professional experience" ∈ requirements <->
   contains "experience" descLower) /\
  sublist requirements ["Bachelor's degree or equivalent experience";
                        "Relevant professional experience"].
Proof.
  simpl. rewrite extract_requirements_eq, <- toLowerCase_lowercased.
  unfold contains. rewrite <- !includes_spec, <- orb_true_iff.
  change requirement_degree with "Bachelor's degree or equivalent experience".
  change requirement_experience with "Relevant professional experience".
  assert ("Bachelor's degree or equivalent experience"
          <> "Relevant professional experience") as Hne by done.
  destruct (JS.includes "bachelor" _ || JS.includes "degree" _),
           (JS.includes "experience" _); simpl.
  - repeat split; try done; intros _.
    + apply list_elem_of_here.
    + apply list_elem_of_further, list_elem_of_here.
  - repeat split; try done.
    + intros _. apply list_elem_of_here.
    + intros Hin%list_elem_of_singleton. by destruct Hne.
    + apply sublist_skip, sublist_nil_l.
  - repeat split; try done.
    + intros Hin%list_elem_of_singleton. by destruct Hne.
    + intros _. apply list_elem_of_here.
    + by apply sublist_cons.
  - repeat split; try done.
    + intros Hin. by apply elem_of_nil in Hin.
    + intros Hin. by apply elem_of_nil in Hin.
    + apply sublist_nil_l.
Qed.

Lemma requirements_extraction_witness :
  "Bachelor's degree or equivalent experience"
    ∈ Job.requirements
        (mapAdzunaJobToJob Sample.en_US "id" "now" MoreSamples.shouting_job) /\
  "Relevant professional experience"
    ∈ Job.requirements
        (mapAdzunaJobToJob Sample.en_US "id" "now" MoreSamples.shouting_job).
Proof.
  destruct (requirements_extraction Sample.en_US "id" "now"
                                    MoreSamples.shouting_job)
    as (Hdegree & Hexperience & _).
  split.
  - apply Hdegree. left.
    by exists "", " required. 5 years experience.".
  - apply Hexperience.
    by exists "bachelor required. 5 years ", ".".
Defined.

(** C10, as stated, fails: a location that is supplied as the empty string
    is not passed as the "where" parameter, and the result does not echo it
    but carries the sentinel. *)
Lemma empty_location_counterexample :
  exists r u,
    execute (Sample.world [Sample.success]) (Sample.search (Some EmptyString) None)
    = Some (Return r, [EvFetch u]) /\
    URLSearchParams.get (URLSearchParams.of_url u) "where" = None /\
    location_of r = Some "all locations".
Proof.
  eexists _, _. split; [vm_compute; reflexivity|].
  vm_compute. done.
Qed.

(** C10, amended. A supplied, non-empty location is passed as the one
    "where" parameter of every request URL; when the location is not
    supplied or is the empty string, the request URLs have no "where"
    parameter; a result tagged "display" carries the supplied non-empty
    location, and the sentinel "all locations" otherwise. *)
Theorem location_handling (env : Env) (args : Args) :
  exists c tr,
    execute env args = Some (c, tr) /\
    (forall u,
        EvFetch u ∈ tr ->
        URLSearchParams.getAll (URLSearchParams.of_url u) "where"
        = match location args with
          | Some l => if decide (l = EmptyString) then [] else [l]
          | None => []
          end) /\
    (forall r,
        c = Return r ->
        action r = "display" ->
        location_of r
        = Some match location args with
               | Some l => if decide (l = EmptyString) then "all locations" else l
               | None => "all locations"
               end).
Proof.
  enter_execute env args.
  destruct (configured env).
  - split.
    + intros u Hin. rewrite (run_fetches_url _ _ _ _ _ _ _ Hshape Hin).
      unfold url_of. by rewrite of_url_request_url, request_where.
    + intros r -> Hact. destruct r as [|jobs count q loc m]; [done|].
      destruct (run_display _ _ _ _ _ _ _ _ _ Hshape)
        as (response & data & _ & _ & _ & _ & _ & _ & ->).
      simpl. by destruct (location args) as [[|ch l]|].
  - destruct Hshape as [-> ->]. split; [|by intros r [= <-]].
    intros u Hin. by apply elem_of_nil in Hin.
Qed.

Lemma location_handling_witness :
  exists r u,
    execute (Sample.world [Sample.success]) (Sample.search (Some "Austin, TX") None)
    = Some (Return r, [EvFetch u]) /\
    URLSearchParams.getAll (URLSearchParams.of_url u) "where" = ["Austin, TX"] /\
    location_of r = Some "Austin, TX".
Proof.
  destruct (location_handling (Sample.world [Sample.success])
                              (Sample.search (Some "Austin, TX") None))
    as (c & tr & Hexec & Hwhere & Hecho).
  assert (exists r u, c = Return r /\ tr = [EvFetch u] /\ action r = "display")
    as (r & u & -> & -> & Hact).
  { vm_compute in Hexec. injection Hexec as <- <-. by eexists _, _. }
  exists r, u. split; [done|]. split.
  - apply Hwhere, list_elem_of_singleton. reflexivity.
  - by apply Hecho.
Defined.

(** * Further properties *)

(** X1. If the first [k - 1] attempts fail transiently and attempt [k]
    completes with a result (a success or an HTTP error), [execute] returns
    that result after [k] network calls to the same URL, having waited
    1000 ms after the first call and 2000 ms after the second:
    [(2^(k-1) - 1) * 1000] ms in all. *)
Theorem retries_then_completion (env : Env) (args : Args) (k : Z)
    (r : SearchResult) :
  configured env = true ->
  1 <= k <= maxRetries ->
  (forall j, 1 <= j < k ->
             exists error : JsError,
               attempt_completion env args (url_of env args) j = Throw error /\
               transient error = true) ->
  attempt_completion env args (url_of env args) k = Return r ->
  execute env args
  = Some (Return r, retry_trace (url_of env args) 1 (Z.to_nat k)) /\
  fetch_calls (retry_trace (url_of env args) 1 (Z.to_nat k)) = Z.to_nat k /\
  total_sleep (retry_trace (url_of env args) 1 (Z.to_nat k))
  = (2 ^ (k - 1) - 1) * 1000.
Proof.
  intros Hconf Hk Hfail Hlast. unfold maxRetries in Hk.
  destruct (execute_configured env args Hconf) as (c & tr & Hexec & Hrun).
  assert (run env args (url_of env args) 1
              (retry_trace (url_of env args) 1 (Z.to_nat k)) (Return r))
    as Hrun'.
  { replace (Z.to_nat k) with (S (Z.to_nat (k - 1))) by lia.
    apply run_forward.
    - unfold maxRetries. lia.
    - intros j Hj. apply Hfail. lia.
    - by replace (1 + Z.of_nat (Z.to_nat (k - 1))) with k by lia. }
  destruct (run_deterministic _ _ _ _ _ _ _ _ Hrun Hrun') as [-> ->].
  split; [done|]. split.
  - assert (k = 1 \/ k = 2 \/ k = 3) as [->|[->| ->]] by lia; reflexivity.
  - rewrite total_sleep_retry_trace by lia. do 3 f_equal. lia.
Qed.

Lemma retries_then_completion_witness :
  exists r u,
    execute (Sample.world [Sample.timed_out; Sample.reset; Sample.success])
            (Sample.search None None)
    = Some (Return r,
            [EvFetch u; EvSleep 1000; EvFetch u; EvSleep 2000; EvFetch u]) /\
    action r = "display".
Proof.
  set (env := Sample.world [Sample.timed_out; Sample.reset; Sample.success]).
  set (args := Sample.search None None).
  destruct (attempt_completion env args (url_of env args) 3) as [r|e|] eqn:Hlast;
    [|by vm_compute in Hlast..].
  destruct (retries_then_completion env args 3 r) as (Hexec & _ & _).
  - reflexivity.
  - unfold maxRetries. lia.
  - intros j Hj. assert (j = 1 \/ j = 2) as [->| ->] by lia.
    + exists Sample.abort_error. by split.
    + exists (Sample.network_error "ECONNRESET"). by split.
  - exact Hlast.
  - exists r, (url_of env args). split; [exact Hexec|].
    vm_compute in Hlast. by injection Hlast as <-.
Defined.

(** X2. Every invocation makes one of four traces: no event at all, or one,
    two or three network calls to the same URL with a wait of 1000 ms after
    the first and of 2000 ms after the second. It never waits after its last
    call, never waits 4000 ms, and never waits more than 3000 ms in all. *)
Theorem execute_trace_shape (env : Env) (args : Args) :
  exists c tr,
    execute env args = Some (c, tr) /\
    (tr = [] \/
     tr = [EvFetch (url_of env args)] \/
     tr = [EvFetch (url_of env args); EvSleep 1000; EvFetch (url_of env args)] \/
     tr = [EvFetch (url_of env args); EvSleep 1000; EvFetch (url_of env args);
           EvSleep 2000; EvFetch (url_of env args)]) /\
    0 <= total_sleep tr <= 3000.
Proof.
  enter_execute env args.
  destruct (configured env).
  - apply run_trace_shape in Hshape as (k & Hk & ->). unfold maxRetries in Hk.
    destruct k as [|[|[|k]]]; [..|lia].
    + split; [right; left; reflexivity|]. simpl. lia.
    + split; [right; right; left; reflexivity|]. simpl.
      unfold backoff_delay. simpl. lia.
    + split; [right; right; right; reflexivity|]. simpl.
      unfold backoff_delay. simpl. lia.
  - destruct Hshape as [_ ->]. split; [by left|]. simpl. lia.
Qed.



(** X4. A thrown value is never retried unless it is a timeout or one of
    the three network errors, whatever the attempt number: the call on
    which it occurs is the last event. If it is a value with properties,
    the result is an error carrying the message of the thrown [Error], or a
    fixed text when the value is not an [Error]; if it is [null] or
    [undefined], the [catch] clause throws a [TypeError] and so does
    [execute]. *)
Theorem unexpected_error_is_final (env : Env) (args : Args) :
  exists c tr,
    execute env args = Some (c, tr) /\
    (forall pre post k (error : JsError),
        kth_call tr pre (url_of env args) post k ->
        attempt_completion env args (url_of env args) k = Throw error ->
        transient error = false ->
        post = [] /\
        c = Return
              (ErrorResult
                 (if instanceof_Error error then message error
                  else "An unexpected error occurred while searching Adzuna")
                 [])) /\
    (forall pre post k (v : Thrown),
        kth_call tr pre (url_of env args) post k ->
        attempt_completion env args (url_of env args) k = Throw v ->
        v = ThrownNull \/ v = ThrownUndefined ->
        post = [] /\
        exists e : JsError,
          c = Throw e /\ instanceof_Error e = true /\
          name e = Some "TypeError").
Proof.
  enter_execute env args.
  destruct (configured env).
  - split.
    + intros pre post k error Hcall Hthrow Ht.
      eapply run_unexpected; [|done..]. by eapply run_at_call.
    + intros pre post k v Hcall Hthrow Hv.
      destruct (run_nullish env args (url_of env args) k c post v)
        as (-> & v' & Hcatch & ->); [by eapply run_at_call|done..|].
      split; [done|].
      apply catch_clause_throw in Hcatch as [[_ ->]|[_ ->]]; by eexists.
  - destruct Hshape as [_ ->].
    split; intros pre post k ? [Htr _]; destruct pre; discriminate Htr.
Qed.

Lemma unexpected_error_is_final_witness :
  (exists u,
      execute (Sample.world [Sample.timed_out; MoreSamples.html_body])
              (Sample.search None None)
      = Some (Return (ErrorResult "Unexpected token < in JSON at position 0" []),
              [EvFetch u; EvSleep 1000; EvFetch u])) /\
  (exists (e : JsError) u,
      execute (Sample.world [FetchRejects ThrownUndefined])
              (Sample.search None None)
      = Some (Throw e, [EvFetch u]) /\
      name e = Some "TypeError").
Proof.
  split.
  - set (env := Sample.world [Sample.timed_out; MoreSamples.html_body]).
    set (args := Sample.search None None).
    destruct (unexpected_error_is_final env args)
      as (c & tr & Hexec & Hfinal & _).
    assert (exists post,
               tr = [EvFetch (url_of env args); EvSleep 1000] ++
                    EvFetch (url_of env args) :: post) as [post ->].
    { vm_compute in Hexec. injection Hexec as _ <-. by eexists. }
    destruct (Hfinal [EvFetch (url_of env args); EvSleep 1000] post 2
                     MoreSamples.syntax_error) as [-> ->];
      [by split | reflexivity | reflexivity |].
    by exists (url_of env args).
  - set (env := Sample.world [FetchRejects ThrownUndefined]).
    set (args := Sample.search None None).
    destruct (unexpected_error_is_final env args)
      as (c & tr & Hexec & _ & Hnullish).
    assert (exists post, tr = EvFetch (url_of env args) :: post) as [post ->].
    { vm_compute in Hexec. injection Hexec as _ <-. by eexists. }
    destruct (Hnullish [] post 1 ThrownUndefined) as (-> & e & -> & _ & Hname);
      [by split | reflexivity | by right |].
    by exists e, (url_of env args).
Defined.

(** X5. [execute] reaches the network exactly when both credentials are
    present and non-empty: a credential set to the empty string counts as
    missing. Without a network call the result is the credentials error. *)
Theorem network_call_iff_configured (env : Env) (args : Args) :
  exists c tr,
    execute env args = Some (c, tr) /\
    ((1 <= fetch_calls tr)%nat <->
     exists appId apiKey,
       process_env env !! "ADZUNA_APP_ID" = Some appId /\
       process_env env !! "ADZUNA_APP_KEY" = Some apiKey /\
       appId <> EmptyString /\ apiKey <> EmptyString) /\
    (fetch_calls tr = 0%nat ->
     c = Return (ErrorResult credentials_error []) /\ tr = []).
Proof.
  enter_execute env args. rewrite <- configured_lookup.
  destruct (configured env).
  - apply run_calls_bound in Hshape as [Hpos _]. split; [done|lia].
  - destruct Hshape as [-> ->]. split; [|done].
    split; [|done]. unfold fetch_calls. simpl. lia.
Qed.

Lemma network_call_iff_configured_witness :
  execute MoreSamples.world_with_empty_id (Sample.search None None)
  = Some (Return (ErrorResult credentials_error []), []).
Proof.
  destruct (network_call_iff_configured MoreSamples.world_with_empty_id
                                        (Sample.search None None))
    as (c & tr & Hexec & _ & Hnone).
  destruct Hnone as [-> ->]; [|exact Hexec].
  vm_compute in Hexec. by injection Hexec as _ <-.
Defined.

(** X6. The loop tests its condition at most [maxRetries] times: with one
    unit of fuel per test, three suffice for it to complete from inside its
    body, whatever the attempts do. How it completes does not depend on
    [lastError], whose only reader is the [return] after the loop: that
    statement is never reached. *)
Theorem loop_exit_unreachable (env : Env) (args : Args) (url : string)
    (lastError : option Thrown) :
  exists c tr,
    retry_loop (Z.to_nat maxRetries) env args url 1 lastError []
    = Some (c, tr) /\
    (1 <= fetch_calls tr <= 3)%nat /\
    forall fuel lastError',
      (Z.to_nat maxRetries <= fuel)%nat ->
      retry_loop fuel env args url 1 lastError' [] = Some (c, tr).
Proof.
  destruct (retry_loop_run env args url (Z.to_nat maxRetries) 1 lastError [])
    as (c & tr & Hloop & Hrun); [unfold maxRetries; lia..|done|].
  exists c, tr. split; [done|]. split.
  - apply run_calls_bound in Hrun. unfold maxRetries in Hrun. lia.
  - intros fuel lastError' Hfuel.
    destruct (retry_loop_run env args url fuel 1 lastError' [])
      as (c' & tr' & Hloop' & Hrun'); [unfold maxRetries in *; lia..|done|].
    by destruct (run_deterministic _ _ _ _ _ _ _ _ Hrun Hrun') as [-> ->].
Qed.

Lemma loop_exit_unreachable_witness :
  exists c tr,
    retry_loop 3 (Sample.world [Sample.reset; Sample.reset; Sample.reset])
               (Sample.search None None) "u" 1 None []
    = Some (c, tr) /\
    retry_loop 7 (Sample.world [Sample.reset; Sample.reset; Sample.reset])
               (Sample.search None None) "u" 1
               (Some (ThrownObject Sample.blank_error)) []
    = Some (c, tr).
Proof.
  destruct (loop_exit_unreachable
              (Sample.world [Sample.reset; Sample.reset; Sample.reset])
              (Sample.search None None) "u" None)
    as (c & tr & Hloop & _ & Hany).
  exists c, tr. split; [exact Hloop|].
  apply Hany. unfold maxRetries. simpl. lia.
Defined.

(** X8. The [catch] clause asks for a retry exactly when the attempt number
    is below [maxRetries] and the thrown value is named AbortError, or has
    one of the three network codes as its own [code], or has no truthy
    [code] of its own and a [cause] with one of them. The wait is then
    [2^(n-1) * 1000] ms. A truthy code of the error itself hides the code of
    its cause. *)
Theorem retry_decision (n : Z) (error : JsError) (delay : Z) :
  catch_clause n error = HContinue delay <->
  delay = 2 ^ (n - 1) * 1000 /\
  n < maxRetries /\
  (name error = Some "AbortError" \/
   exists s,
     s ∈ network_codes /\
     (code error = CodeString s \/
      truthy_code (code error) = false /\ cause error = Some (CodeString s))).
Proof.
  rewrite <- transient_fields. split.
  - intros (Hn & Ht & ->)%catch_clause_continue. done.
  - intros (-> & Hn & Ht). by apply catch_clause_transient.
Qed.

Lemma retry_decision_witness :
  catch_clause 2 (Sample.network_error "ECONNREFUSED") = HContinue 2000 /\
  catch_clause 2 MoreSamples.shadowed_error <> HContinue 2000.
Proof.
  split.
  - apply (retry_decision 2 (Sample.network_error "ECONNREFUSED") 2000).
    split; [reflexivity|]. split; [reflexivity|].
    right. exists "ECONNREFUSED". split.
    + do 2 apply list_elem_of_further. apply list_elem_of_here.
    + right. split; reflexivity.
  - intros Hretry.
    apply (retry_decision 2 MoreSamples.shadowed_error 2000) in Hretry
      as (_ & _ & [Hname|(s & _ & [Hcode|[Hfalsy _]])]);
      discriminate.
Defined.

(** X9. The keyword checks ignore the case of ASCII letters: a description
    in which "bachelor" or "degree" occurs in any mix of upper and lower
    case gets the degree requirement, and one in which "experience" occurs
    in any case gets the experience requirement. *)
Theorem keywords_match_any_case (format : Number -> string)
    (fresh_id now w : string) (adzunaJob : AdzunaJob.t) :
  contains w (AdzunaJob.description adzunaJob) ->
  (JS.toLowerCase w = "bachelor" \/ JS.toLowerCase w = "degree" ->
   requirement_degree
     ∈ Job.requirements (mapAdzunaJobToJob format fresh_id now adzunaJob)) /\
  (JS.toLowerCase w = "experience" ->
   requirement_experience
     ∈ Job.requirements (mapAdzunaJobToJob format fresh_id now adzunaJob)).
Proof.
  intros Hw%contains_toLowerCase. simpl. rewrite extract_requirements_eq.
  unfold contains in Hw. rewrite <- includes_spec in Hw. split.
  - intros [Hlow|Hlow]; rewrite Hlow in Hw; rewrite Hw, ?orb_true_r;
      apply elem_of_app; left; apply list_elem_of_here.
  - intros Hlow. rewrite Hlow in Hw. rewrite Hw.
    apply elem_of_app. right. apply list_elem_of_here.
Qed.

Lemma keywords_match_any_case_witness :
  requirement_degree
    ∈ Job.requirements (mapAdzunaJobToJob Sample.en_US "id" "now" Sample.job).
Proof.
  apply (keywords_match_any_case Sample.en_US "id" "now" "Bachelor" Sample.job).
  - exists "", "'s degree required. 5 years experience.". reflexivity.
  - left. reflexivity.
Defined.

(** X10. Adding text before or after a description never removes a
    requirement: the requirements of the shorter description are a sublist
    of those of the longer one. *)
Theorem requirements_grow_with_description (format : Number -> string)
    (id1 now1 id2 now2 pre post : string) (job1 job2 : AdzunaJob.t) :
  AdzunaJob.description job2 = pre +:+ AdzunaJob.description job1 +:+ post ->
  sublist (Job.requirements (mapAdzunaJobToJob format id1 now1 job1))
          (Job.requirements (mapAdzunaJobToJob format id2 now2 job2)).
Proof.
  intros Hdesc. simpl. rewrite Hdesc, !extract_requirements_eq.
  set (d := AdzunaJob.description job1).
  apply sublist_app.
  - destruct (JS.includes "bachelor" (JS.toLowerCase d)) eqn:Hb; simpl.
    { by rewrite (includes_grows _ pre d post Hb). }
    destruct (JS.includes "degree" (JS.toLowerCase d)) eqn:Hd; simpl.
    { by rewrite (includes_grows _ pre d post Hd), orb_true_r. }
    apply sublist_nil_l.
  - destruct (JS.includes "experience" (JS.toLowerCase d)) eqn:He.
    { by rewrite (includes_grows _ pre d post He). }
    apply sublist_nil_l.
Qed.

Lemma requirements_grow_with_description_witness :
  sublist
    (Job.requirements (mapAdzunaJobToJob Sample.en_US "a" "t" Sample.job))
    (Job.requirements
       (mapAdzunaJobToJob Sample.en_US "b" "t"
          {| AdzunaJob.id := "1"; AdzunaJob.title := "T";
             AdzunaJob.company := {| AdzunaJob.company_display_name := "C" |};
             AdzunaJob.location :=
               {| AdzunaJob.location_display_name := "L";
                  AdzunaJob.area := None |};
             AdzunaJob.description :=
               "About the role: " +:+ AdzunaJob.description Sample.job +:+
               " Apply now.";
             AdzunaJob.salary_min := None; AdzunaJob.salary_max := None;
             AdzunaJob.redirect_url := "https://example.org";
             AdzunaJob.category := None; AdzunaJob.contract_type := None;
             AdzunaJob.created := None |})).
Proof.
  apply (requirements_grow_with_description Sample.en_US "a" "t" "b" "t"
           "About the role: " " Apply now.").
  reflexivity.
Defined.

(** X11. A result tagged "display" comes from the response to the last
    network call of the invocation. Its jobs are the provider's results in
    the provider's order, one canonical job for each, the [i]-th of them
    mapped with the [i]-th generated id; its count is the number of those
    results, not the provider's own [count] field; and it echoes the query
    unchanged. *)
Theorem display_jobs (env : Env) (args : Args) :
  exists c tr,
    execute env args = Some (c, tr) /\
    forall r,
      c = Return r ->
      action r = "display" ->
      exists response data,
        fetch env (fetch_calls tr) (url_of env args) = FetchResolves response /\
        json response = JsonResolves data /\
        length (jobs_of r) = length (results data) /\
        count_of r = Some (Z.of_nat (length (results data))) /\
        query_of r = Some (query args) /\
        forall i,
          jobs_of r !! i
          = mapAdzunaJobToJob (toLocaleString env) (uuidv4 env i)
                              (toISOString env i)
              <$> results data !! i.
Proof.
  enter_execute env args. intros r -> Hact.
  destruct (configured env); [|by destruct Hshape as [[= ->] _]].
  destruct r as [|jobs count q loc msg]; [discriminate Hact|].
  destruct (run_display _ _ _ _ _ _ _ _ _ Hshape)
    as (response & data & Hfetch & _ & Hjson & -> & -> & -> & _).
  exists response, data.
  split; [done|]. split; [done|]. split; [apply length_imap|].
  split; [done|]. split; [done|].
  intros i. simpl. by rewrite list_lookup_imap.
Qed.

Lemma display_jobs_witness :
  exists r tr,
    execute (Sample.world [Sample.reset; MoreSamples.two_jobs])
            (Sample.search None None)
    = Some (Return r, tr) /\
    count_of r = Some 2 /\
    jobs_of r !! 1%nat
    = Some (mapAdzunaJobToJob Sample.en_US "uuid-1" "2025-01-01T00:00:00.000Z"
              (Sample.with_salary None None)).
Proof.
  set (env := Sample.world [Sample.reset; MoreSamples.two_jobs]).
  destruct (display_jobs env (Sample.search None None))
    as (c & tr & Hexec & Hdisplay).
  assert (exists r, c = Return r /\ action r = "display" /\
                    fetch_calls tr = 2%nat) as (r & -> & Hact & Hcalls).
  { vm_compute in Hexec. injection Hexec as <- <-. by eexists. }
  destruct (Hdisplay r eq_refl Hact)
    as (response & data & Hfetch & Hjson & _ & Hcount & _ & Hjobs).
  rewrite Hcalls in Hfetch. vm_compute in Hfetch. injection Hfetch as <-.
  simpl in Hjson. injection Hjson as <-.
  exists r, tr. split; [exact Hexec|]. split; [exact Hcount|].
  rewrite Hjobs. reflexivity.
Defined.

(** X12. The id of every job of a result is the generated id, never the
    provider's: the [i]-th job carries the [i]-th generated id, so the jobs
    of a result have pairwise distinct ids whenever the generator does not
    repeat itself over them. *)
Theorem display_ids_distinct (env : Env) (args : Args) :
  exists c tr,
    execute env args = Some (c, tr) /\
    forall r,
      c = Return r ->
      (forall i job, jobs_of r !! i = Some job -> Job.id job = uuidv4 env i) /\
      ((forall i i',
           (i < length (jobs_of r))%nat -> (i' < length (jobs_of r))%nat ->
           uuidv4 env i = uuidv4 env i' -> i = i') ->
       NoDup (Job.id <$> jobs_of r)).
Proof.
  enter_execute env args. intros r ->.
  assert (forall i job, jobs_of r !! i = Some job -> Job.id job = uuidv4 env i)
    as Hids.
  { destruct (configured env); [|by destruct Hshape as [[= ->] _]].
    destruct r as [msg jobs|jobs count q loc msg].
    - by destruct (run_error_kinds _ _ _ _ _ _ Hshape) as [-> _].
    - destruct (run_display _ _ _ _ _ _ _ _ _ Hshape)
        as (response & data & _ & _ & _ & -> & _).
      simpl. intros i job. rewrite list_lookup_imap.
      destruct (results data !! i); by intros [= <-]. }
  split; [done|]. intros Hinj.
  apply NoDup_alt. intros i i' x.
  rewrite !list_lookup_fmap.
  destruct (jobs_of r !! i) as [job|] eqn:Hi; [|done].
  destruct (jobs_of r !! i') as [job'|] eqn:Hi'; [|done].
  simpl. intros [= <-] [= Heq].
  apply Hinj; [by eapply lookup_lt_Some..|].
  by rewrite <- (Hids _ _ Hi), <- (Hids _ _ Hi').
Qed.

Lemma display_ids_distinct_witness :
  exists r tr,
    execute (Sample.world [MoreSamples.two_jobs]) (Sample.search None None)
    = Some (Return r, tr) /\
    NoDup (Job.id <$> jobs_of r).
Proof.
  destruct (display_ids_distinct (Sample.world [MoreSamples.two_jobs])
                                 (Sample.search None None))
    as (c & tr & Hexec & Hdistinct).
  assert (exists r, c = Return r /\ length (jobs_of r) = 2%nat)
    as (r & -> & Hlen).
  { vm_compute in Hexec. injection Hexec as <- _. by eexists. }
  exists r, tr. split; [exact Hexec|].
  apply (Hdistinct r eq_refl). rewrite Hlen.
  intros [|[|i]] [|[|i']] Hi Hi' Heq; try lia; discriminate Heq.
Defined.

Lemma try_block_pending env args outcome :
  try_block env args outcome = Pending ->
  exists response,
    outcome = FetchResolves response /\
    ok response = true /\
    json response = JsonPending.
Proof.
  unfold try_block. destruct outcome as [e|response]; [done|].
  destruct (ok response) eqn:Hok; simpl; [|done].
  destruct (json response) eqn:Hjson; try done.
  intros _. by exists response.
Qed.

(** X13. An error result is of one of five kinds, told apart by what the
    last network call did: no call was made and the credentials message is
    returned; or the last response had a non-success status; or the last
    attempt threw a timeout, or a network error, on the third call and no
    earlier; or it threw something else, on any call. *)
Theorem error_taxonomy (env : Env) (args : Args) :
  exists c tr,
    execute env args = Some (c, tr) /\
    forall r,
      c = Return r ->
      action r = "error" ->
      exists msg,
        r = ErrorResult msg [] /\
        (tr = [] /\ configured env = false /\ msg = credentials_error \/
         (exists response,
             fetch env (fetch_calls tr) (url_of env args)
             = FetchResolves response /\
             ok response = false /\
             msg = "Adzuna API returned error: " +:+
                   JS.toString (exponent_text env) (status response) +:+
                   " " +:+ statusText response) \/
         (exists error : JsError,
             attempt_completion env args (url_of env args)
                                (Z.of_nat (fetch_calls tr)) = Throw error /\
             (fetch_calls tr = 3%nat /\ is_AbortError error = true /\
              msg = "Adzuna API request timed out after 3 attempts" \/
              fetch_calls tr = 3%nat /\ is_AbortError error = false /\
              is_network_code (errorCode error) = true /\
              msg = "Network error connecting to Adzuna: " +:+
                    code_text (errorCode error) \/
              transient error = false /\
              msg = (if instanceof_Error error then message error
                     else "An unexpected error occurred while searching Adzuna")))).
Proof.
  enter_execute env args. intros r -> Hact.
  destruct r as [msg jobs|]; [|discriminate Hact].
  destruct (configured env).
  2:{ destruct Hshape as [[= -> ->] ->]. exists credentials_error.
      split; [done|]. by left. }
  destruct (run_error_kinds _ _ _ _ _ _ Hshape) as [-> Hkinds].
  exists msg. split; [done|]. right. exact Hkinds.
Qed.

Lemma error_taxonomy_witness :
  exists r tr,
    execute (Sample.world [Sample.timed_out; Sample.timed_out; Sample.timed_out])
            (Sample.search None None)
    = Some (Return r, tr) /\
    exists msg, r = ErrorResult msg [].
Proof.
  destruct (error_taxonomy
              (Sample.world [Sample.timed_out; Sample.timed_out; Sample.timed_out])
              (Sample.search None None))
    as (c & tr & Hexec & Hkinds).
  assert (exists r, c = Return r /\ action r = "error") as (r & -> & Hact).
  { vm_compute in Hexec. injection Hexec as <- _. by eexists. }
  exists r, tr. split; [exact Hexec|].
  destruct (Hkinds r eq_refl Hact) as (msg & Hr & _). by exists msg.
Defined.

(** X14. [execute] completes in one of three ways. It returns a result;
    or it throws, which happens exactly when the last attempt rejected with
    [null] or [undefined] and the [catch] clause threw a [TypeError] on
    reading it; or it stays pending, which happens exactly when the last
    response had a success status and a body that never arrived. *)
Theorem execute_completion_kinds (env : Env) (args : Args) :
  exists c tr,
    execute env args = Some (c, tr) /\
    ((exists r, c = Return r) \/
     (exists (v : Thrown) (e : JsError),
         c = Throw e /\
         attempt_completion env args (url_of env args)
                            (Z.of_nat (fetch_calls tr)) = Throw v /\
         (v = ThrownNull \/ v = ThrownUndefined) /\
         instanceof_Error e = true /\ name e = Some "TypeError") \/
     (exists response,
         c = Pending /\
         fetch env (fetch_calls tr) (url_of env args) = FetchResolves response /\
         ok response = true /\
         json response = JsonPending)).
Proof.
  enter_execute env args.
  destruct (configured env).
  2:{ destruct Hshape as [-> _]. left. by eexists. }
  pose proof (run_calls_bound _ _ _ _ _ _ Hshape) as [Hpos _].
  apply run_last_attempt in Hshape as [_ Hlast].
  replace (1 + Z.of_nat (fetch_calls tr) - 1)
    with (Z.of_nat (fetch_calls tr)) in * by lia.
  destruct Hlast
    as [[Hbody Hnot]|(v & Hthrow & [(r & _ & ->)|(v' & Hcatch & ->)])].
  - destruct c as [r|v|]; [left; by eexists|by destruct (Hnot v)|].
    right; right. unfold attempt_completion in Hbody.
    rewrite Nat2Z.id in Hbody.
    apply try_block_pending in Hbody as (response & ? & ? & ?).
    by exists response.
  - left. by eexists.
  - right; left.
    apply catch_clause_throw in Hcatch as [[-> ->]|[-> ->]];
      eexists _, _; (split; [done|]); (split; [done|]); split; eauto.
Qed.

Lemma execute_completion_kinds_witness :
  exists u,
    execute (Sample.world [Sample.timed_out; MoreSamples.stalled_body])
            (Sample.search None None)
    = Some (Pending, [EvFetch u; EvSleep 1000; EvFetch u]).
Proof.
  destruct (execute_completion_kinds
              (Sample.world [Sample.timed_out; MoreSamples.stalled_body])
              (Sample.search None None))
    as (c & tr & Hexec & Hkinds).
  assert (c = Pending /\ exists u, tr = [EvFetch u; EvSleep 1000; EvFetch u])
    as [-> [u ->]].
  { vm_compute in Hexec. injection Hexec as <- <-. split; [done|by eexists]. }
  by exists u.
Defined.
